(** * oppmonitor: the dedup and scoring pipeline of [monitor.py]

    A shallow embedding of the fingerprinting, seen-ledger, relevance
    scoring and ranking code of [monitor.py], and the properties of the
    design document proved (or refuted) over it.

    Conventions of the embedding.
    - A Python [str] is a list of code points.  The embedding covers the
      code points U+0000..U+00FF, which the type [ascii] enumerates; on
      that range Python's whitespace class and its [lower()] are the
      character-wise functions [is_space] and [to_lower] below.  The
      module [Wide] models normalization and fingerprinting once more
      over a wider alphabet, where [lower()] depends on the context.
    - A dictionary read with fixed keys (the YAML configuration, a feed
      entry) is a record of [option] fields: [None] is a missing key.
      [d[k]] on a missing key raises [KeyError]; [d.get(k, v)] defaults.
    - The SQLite table [seen] is the list of its rows, in insertion order.
    - Stateful code runs in a state-and-exception monad over the [world]
      (the table and the number of clock readings so far); an exception
      leaves the rows committed before it in place. *)

From Stdlib Require Import List Ascii String ZArith NArith Arith Bool Lia.
From Stdlib Require Import Permutation Sorted Relations.
Import ListNotations.

(** ** Strings *)

Definition str := list ascii.

Coercion list_ascii_of_string : string >-> list.

Definition str_eqb (a b : str) : bool :=
  if list_eq_dec ascii_dec a b then true else false.

Definition code (c : ascii) : N := N_of_ascii c.

(** [str.isspace()] and the regular expression class [\s] on U+0000..U+00FF:
    TAB..CR, FS..US, SPACE, NEL (U+0085) and NBSP (U+00A0). *)
Definition is_space (c : ascii) : bool :=
  let n := code c in
  ((9 <=? n) && (n <=? 13) || (28 <=? n) && (n <=? 32)
   || (n =? 133) || (n =? 160))%N.

(** [str.lower()] on U+0000..U+00FF: A..Z, and the Latin-1 capitals
    U+00C0..U+00DE except the multiplication sign U+00D7. *)
Definition to_lower (c : ascii) : ascii :=
  let n := code c in
  if ((65 <=? n) && (n <=? 90)
      || (192 <=? n) && (n <=? 222) && negb (n =? 215))%N
  then ascii_of_N (n + 32) else c.

Definition lower (s : str) : str := map to_lower s.

Definition SP : ascii := " "%char.
Definition BAR : ascii := "|"%char.

(** [re.sub(r"\s+", " ", s)]: every maximal whitespace run becomes one
    space.  [in_run] tells that the previous character was whitespace. *)
Fixpoint resub_ws (in_run : bool) (s : str) : str :=
  match s with
  | [] => []
  | c :: r =>
      if is_space c
      then if in_run then resub_ws true r else SP :: resub_ws true r
      else c :: resub_ws false r
  end.

Fixpoint lstrip (s : str) : str :=
  match s with
  | [] => []
  | c :: r => if is_space c then lstrip r else s
  end.

Fixpoint rstrip (s : str) : str :=
  match s with
  | [] => []
  | c :: r =>
      match rstrip r with
      | [] => if is_space c then [] else [c]
      | r' => c :: r'
      end
  end.

(** [str.strip()] *)
Definition strip (s : str) : str := lstrip (rstrip s).

(** [normalize_text(s)]: [re.sub(r"\s+", " ", (s or "")).strip().lower()] *)
Definition normalize_text (s : str) : str :=
  lower (strip (resub_ws false s)).

(** [x in t] on strings: [x] occurs in [t] as a contiguous substring. *)
Fixpoint starts_with (x t : str) : bool :=
  match x, t with
  | [], _ => true
  | _ :: _, [] => false
  | a :: x', b :: t' => if ascii_dec a b then starts_with x' t' else false
  end.

Fixpoint contains (t x : str) : bool :=
  starts_with x t ||
  match t with
  | [] => false
  | _ :: t' => contains t' x
  end.

(** ** SHA-256 and the fingerprint *)

Module Sha256.

Local Open Scope Z_scope.

Definition w32 (x : Z) : Z := x mod 2 ^ 32.
Definition add32 (x y : Z) : Z := w32 (x + y).
Definition rotr (n x : Z) : Z :=
  Z.lor (Z.shiftr x n) (w32 (Z.shiftl x (32 - n))).
Definition not32 (x : Z) : Z := 2 ^ 32 - 1 - x.

Definition Ch (x y z : Z) : Z :=
  Z.lxor (Z.land x y) (Z.land (not32 x) z).
Definition Maj (x y z : Z) : Z :=
  Z.lxor (Z.lxor (Z.land x y) (Z.land x z)) (Z.land y z).
Definition Sigma0 (x : Z) : Z :=
  Z.lxor (Z.lxor (rotr 2 x) (rotr 13 x)) (rotr 22 x).
Definition Sigma1 (x : Z) : Z :=
  Z.lxor (Z.lxor (rotr 6 x) (rotr 11 x)) (rotr 25 x).
Definition sigma0 (x : Z) : Z :=
  Z.lxor (Z.lxor (rotr 7 x) (rotr 18 x)) (Z.shiftr x 3).
Definition sigma1 (x : Z) : Z :=
  Z.lxor (Z.lxor (rotr 17 x) (rotr 19 x)) (Z.shiftr x 10).

(** The constants, as the standard defines them: the first 32 bits of the
    fractional parts of the cube roots ([K]) and of the square roots
    ([H0]) of the first primes. *)
Definition is_prime (n : Z) : bool :=
  forallb (fun d => negb (n mod d =? 0))
          (map Z.of_nat (seq 2 (Z.to_nat n - 2))).

Definition primes (count : nat) : list Z :=
  firstn count (filter is_prime (map Z.of_nat (seq 2 310))).

(** Integer cube root, bit by bit from bit [b - 1] down. *)
Fixpoint cbrt_bits (b : nat) (n r : Z) : Z :=
  match b with
  | O => r
  | S b' =>
      let c := r + 2 ^ Z.of_nat b' in
      cbrt_bits b' n (if c * c * c <=? n then c else r)
  end.

Definition frac_cbrt32 (p : Z) : Z := w32 (cbrt_bits 36 (p * 2 ^ 96) 0).
Definition frac_sqrt32 (p : Z) : Z := w32 (Z.sqrt (p * 2 ^ 64)).

Definition K : list Z := Eval vm_compute in map frac_cbrt32 (primes 64).

Definition H0 : list Z := Eval vm_compute in map frac_sqrt32 (primes 8).

(** Big-endian words of a block of bytes. *)
Fixpoint be_words (bs : list Z) : list Z :=
  match bs with
  | b0 :: b1 :: b2 :: b3 :: r =>
      (((b0 * 256 + b1) * 256 + b2) * 256 + b3) :: be_words r
  | _ => []
  end.

(** The message schedule, most recent word first: [rw] holds
    W[t-1], W[t-2], ..., W[0]. *)
Fixpoint extend (n : nat) (rw : list Z) : list Z :=
  match n with
  | O => rw
  | S n' =>
      let w :=
        add32 (add32 (sigma1 (nth 1 rw 0)) (nth 6 rw 0))
              (add32 (sigma0 (nth 14 rw 0)) (nth 15 rw 0)) in
      extend n' (w :: rw)
  end.

Definition schedule (block : list Z) : list Z :=
  rev (extend 48 (rev (be_words block))).

Record regs : Type :=
  Regs { ra : Z; rb : Z; rc : Z; rd : Z; re : Z; rf : Z; rg : Z; rh : Z }.

Definition round (r : regs) (kw : Z * Z) : regs :=
  let t1 :=
    add32 (add32 (add32 (rh r) (Sigma1 (re r)))
                 (add32 (Ch (re r) (rf r) (rg r)) (fst kw))) (snd kw) in
  let t2 := add32 (Sigma0 (ra r)) (Maj (ra r) (rb r) (rc r)) in
  Regs (add32 t1 t2) (ra r) (rb r) (rc r) (add32 (rd r) t1)
       (re r) (rf r) (rg r).

Definition regs_of (h : list Z) : regs :=
  Regs (nth 0 h 0) (nth 1 h 0) (nth 2 h 0) (nth 3 h 0)
       (nth 4 h 0) (nth 5 h 0) (nth 6 h 0) (nth 7 h 0).

Definition list_of (r : regs) : list Z :=
  [ra r; rb r; rc r; rd r; re r; rf r; rg r; rh r].

Definition compress (h : list Z) (block : list Z) : list Z :=
  let r := fold_left round (combine K (schedule block)) (regs_of h) in
  map (fun p => add32 (fst p) (snd p)) (combine h (list_of r)).

Fixpoint blocks (fuel : nat) (h : list Z) (bs : list Z) : list Z :=
  match fuel, bs with
  | S fuel', _ :: _ => blocks fuel' (compress h (firstn 64 bs)) (skipn 64 bs)
  | _, _ => h
  end.

Definition be_bytes (n : nat) (x : Z) : list Z :=
  map (fun i => Z.shiftr x (8 * Z.of_nat i) mod 256) (rev (seq 0 n)).

Definition pad (msg : list Z) : list Z :=
  let len := Z.of_nat (List.length msg) in
  let zeros := Z.to_nat ((55 - len) mod 64) in
  msg ++ [0x80] ++ repeat 0 zeros ++ be_bytes 8 (8 * len).

(** The 32 bytes of the digest. *)
Definition digest (msg : list Z) : list Z :=
  let p := pad msg in
  flat_map (be_bytes 4) (blocks (List.length p) H0 p).

Definition hex_digit (d : Z) : ascii :=
  ascii_of_N (Z.to_N (if d <? 10 then 48 + d else 87 + d)).

Definition hex (bs : list Z) : str :=
  flat_map (fun b => [hex_digit (b / 16); hex_digit (b mod 16)]) bs.

End Sha256.

(** [s.encode("utf-8")] for code points below U+0100. *)
Definition utf8 (s : str) : list Z :=
  flat_map (fun c =>
              let n := Z.of_N (code c) in
              if (n <? 128)%Z then [n]
              else [Z.lor 0xC0 (Z.shiftr n 6); Z.lor 0x80 (Z.land n 0x3F)])
           s.

(** [sha256(b).hexdigest()] *)
Definition sha256_hexdigest (b : list Z) : str := Sha256.hex (Sha256.digest b).

(** The local [base] of [item_id]. *)
Definition item_base (title link : str) : str :=
  normalize_text title ++ BAR :: normalize_text link.

Definition item_id (title link : str) : str :=
  sha256_hexdigest (utf8 (item_base title link)).

(** ** Dictionaries, exceptions and the data model *)

Local Open Scope string_scope.
Local Open Scope list_scope.

Inductive exn : Type := KeyError (k : string).

Inductive result (A : Type) : Type :=
| Ok (a : A)
| Raise (e : exn).

Arguments Ok {A} a.
Arguments Raise {A} e.

(** [d.get(k, default)] *)
Definition get {A : Type} (field : option A) (default : A) : A :=
  match field with
  | Some v => v
  | None => default
  end.

(** [d[k]] *)
Definition getitem {A : Type} (k : string) (field : option A) : result A :=
  match field with
  | Some v => Ok v
  | None => Raise (KeyError k)
  end.

(** [a or b] on strings: the empty string is falsy. *)
Definition str_or (a b : str) : str :=
  match a with
  | [] => b
  | _ :: _ => a
  end.

Record Item : Type := mkItem {
  source : str;
  title : str;
  link : str;
  published : str;
  summary : str;
  tags : list str;
  score : Z
}.

(** [cfg["keywords"]] *)
Record Keywords : Type := mkKeywords {
  exclude_any : option (list str);
  must_have_any : option (list str);
  nice_to_have_any : option (list str)
}.

(** [cfg["email"]] *)
Record Email : Type := mkEmail {
  subject_prefix : option str;
  max_items : option Z
}.

(** One element of [cfg["sources"]]. *)
Record Source : Type := mkSource {
  src_name : option str;
  src_type : option str;
  src_url : option str;
  src_tags : option (list str)
}.

Record Config : Type := mkConfig {
  sources : option (list Source);
  keywords : option Keywords;
  email : option Email
}.

(** One element of [d.entries]. *)
Record Entry : Type := mkEntry {
  e_title : option str;
  e_link : option str;
  e_summary : option str;
  e_description : option str;
  e_published : option str;
  e_updated : option str;
  e_created : option str
}.

(** ** The relevance scorer *)

Definition bonus_terms : list str :=
  ["rfp" : str; "tender" : str; "eoi" : str; "expression of interest" : str;
   "procurement" : str; "bid" : str; "request for proposal" : str].

(** [sum(1 for x in l if p(x))] *)
Definition count_if {A : Type} (p : A -> bool) (l : list A) : Z :=
  Z.of_nat (List.length (filter p l)).

(** Truth value of a list: non-empty. *)
Definition truthy {A : Type} (l : list A) : bool :=
  match l with
  | [] => false
  | _ :: _ => true
  end.

Definition score_item (text : str) (cfg : Config) : result (bool * Z) :=
  match getitem "keywords" (keywords cfg) with
  | Raise e => Raise e
  | Ok kw =>
      let t := normalize_text text in
      if existsb (fun x => contains t (normalize_text x))
                 (get (exclude_any kw) [])
      then Ok (false, 0%Z)
      else
        let must := get (must_have_any kw) [] in
        if truthy must
           && negb (existsb (fun x => contains t (normalize_text x)) must)
        then Ok (false, 0%Z)
        else
          let score := 60%Z in
          let nice := get (nice_to_have_any kw) [] in
          let score :=
            (score + 5 * count_if (fun x => contains t (normalize_text x)) nice)%Z in
          let score :=
            (score + 5 * count_if (fun x => contains t x) bonus_terms)%Z in
          Ok (true, Z.min score 100)
  end.

(** ** Ranking: [items_sorted] of [build_email_html] *)

(** [a < b] on strings: lexicographic by code point. *)
Fixpoint str_ltb (a b : str) : bool :=
  match a, b with
  | _, [] => false
  | [], _ :: _ => true
  | x :: a', y :: b' =>
      (code x <? code y)%N || (code x =? code y)%N && str_ltb a' b'
  end.

(** The sort key [(x.score, x.published)] and tuple comparison. *)
Definition key (x : Item) : Z * str := (score x, published x).

Definition key_ltb (k1 k2 : Z * str) : bool :=
  (fst k1 <? fst k2)%Z || (fst k1 =? fst k2)%Z && str_ltb (snd k1) (snd k2).

(** [sorted(items, key=..., reverse=True)]: descending, and stable (items
    with equal keys keep their order). *)
Fixpoint insert_desc (x : Item) (l : list Item) : list Item :=
  match l with
  | [] => [x]
  | y :: r => if key_ltb (key x) (key y) then y :: insert_desc x r else x :: l
  end.

Definition sorted_desc (items : list Item) : list Item :=
  fold_right insert_desc [] items.

(** The slice [l[:n]], also for a negative [n]. *)
Definition slice_to {A : Type} (n : Z) (l : list A) : list A :=
  if (n <? 0)%Z
  then firstn (Z.to_nat (Z.of_nat (List.length l) + n)) l
  else firstn (Z.to_nat n) l.

Definition items_sorted (items : list Item) (cfg : Config) : result (list Item) :=
  match getitem "email" (email cfg) with
  | Raise e => Raise e
  | Ok em =>
      match getitem "max_items" (max_items em) with
      | Raise e => Raise e
      | Ok n => Ok (slice_to n (sorted_desc items))
      end
  end.

(** ** Tag stripping: [re.sub("<[^<]+?>", " ", summary)] *)

Definition LT : ascii := "<"%char.
Definition GT : ascii := ">"%char.

(** After the first character of a tag body: the distance to the closing
    [>], if it comes before any [<]. *)
Fixpoint close_at (r : str) : option nat :=
  match r with
  | [] => None
  | c :: r' =>
      if ascii_dec c GT then Some 1%nat
      else if ascii_dec c LT then None
      else option_map S (close_at r')
  end.

(** Length of the shortest match of [[^<]+?>] at the head of [r]. *)
Definition tag_len (r : str) : option nat :=
  match r with
  | [] => None
  | c :: r' => if ascii_dec c LT then None else option_map S (close_at r')
  end.

Fixpoint sub_tags (skip : nat) (s : str) : str :=
  match s with
  | [] => []
  | c :: r =>
      match skip with
      | S k => sub_tags k r
      | O =>
          if ascii_dec c LT
          then match tag_len r with
               | Some n => SP :: sub_tags n r
               | None => c :: sub_tags 0 r
               end
          else c :: sub_tags 0 r
      end
  end.

Definition strip_tags (s : str) : str := sub_tags 0 s.

(** ** The seen ledger *)

(** A row [(id, first_seen_utc)] of the table [seen]. *)
Definition row : Type := str * str.

Record world : Type := mkWorld {
  seen : list row;
  ticks : nat
}.

Definition has_id (iid : str) (rows : list row) : bool :=
  existsb (fun r => str_eqb (fst r) iid) rows.

(** [INSERT OR IGNORE INTO seen (id, first_seen_utc) VALUES (?, ?)] under
    the primary key [id]. *)
Definition insert_or_ignore (r : row) (rows : list row) : list row :=
  if has_id (fst r) rows then rows else rows ++ [r].

(** [SELECT ... FROM seen WHERE id = ?]: the rows of an id. *)
Definition select_id (iid : str) (rows : list row) : list row :=
  filter (fun r => str_eqb (fst r) iid) rows.

Definition M (A : Type) : Type := world -> result A * world.

Definition ret {A : Type} (a : A) : M A := fun w => (Ok a, w).

Definition bind {A B : Type} (m : M A) (f : A -> M B) : M B :=
  fun w =>
    match m w with
    | (Ok a, w') => f a w'
    | (Raise e, w') => (Raise e, w')
    end.

Definition lift {A : Type} (r : result A) : M A := fun w => (r, w).

Notation "x <- m ;; k" := (bind m (fun x => k))
  (at level 61, m at next level, right associativity).

Section Pipeline.

(** The collaborators outside the program: the UTC clock (its n-th
    reading, in ISO format), [dateutil]'s parser followed by
    [.date().isoformat()] ([None] when it raises), and the entries
    [feedparser.parse(url).entries]. *)
Variable clock : nat -> str.
Variable dateparse : str -> option str.
Variable feed : str -> list Entry.

(** [CREATE TABLE IF NOT EXISTS]: the table of the [world] exists. *)
Definition ensure_db : M unit := ret tt.

Definition already_seen (iid : str) : M bool :=
  fun w => (Ok (has_id iid (seen w)), w).

Definition mark_seen (iid : str) : M unit :=
  fun w =>
    let now := clock (ticks w) in
    (Ok tt, mkWorld (insert_or_ignore (iid, now) (seen w)) (S (ticks w))).

Fixpoint parse_date_keys (vals : list (option str)) : str :=
  match vals with
  | [] => []
  | Some (c :: s) :: r =>
      match dateparse (c :: s) with
      | Some d => d
      | None => parse_date_keys r
      end
  | _ :: r => parse_date_keys r
  end.

Definition parse_date (e : Entry) : str :=
  parse_date_keys [e_published e; e_updated e; e_created e].

Definition NL : ascii := ascii_of_nat 10.

Definition entry_title (e : Entry) : str := strip (get (e_title e) []).
Definition entry_link (e : Entry) : str := strip (get (e_link e) []).
Definition entry_summary (e : Entry) : str :=
  strip (str_or (get (e_summary e) []) (str_or (get (e_description e) []) [])).
Definition entry_blob (e : Entry) : str :=
  entry_title e ++ NL :: entry_summary e.

(** The body of the loop of [fetch_rss_source]: [Some] item when one is
    appended, [None] on [continue]. *)
Definition process_entry (src : Source) (cfg : Config) (e : Entry)
  : M (option Item) :=
  let title := entry_title e in
  let link := entry_link e in
  let summary := entry_summary e in
  let published := parse_date e in
  let blob := title ++ NL :: summary in
  ks <- lift (score_item blob cfg) ;;
  let '(keep, score) := ks in
  if negb keep then ret None
  else
    let iid := item_id title link in
    s <- already_seen iid ;;
    if (s : bool) then ret None
    else
      name <- lift (getitem "name" (src_name src)) ;;
      let it := mkItem name (str_or title "(no title)") link published
                       (firstn 500 (strip_tags summary))
                       (get (src_tags src) []) score in
      _ <- mark_seen iid ;;
      ret (Some it).

Definition append_opt (items : list Item) (o : option Item) : list Item :=
  match o with
  | Some it => items ++ [it]
  | None => items
  end.

Fixpoint fetch_loop (src : Source) (cfg : Config) (es : list Entry)
         (items : list Item) : M (list Item) :=
  match es with
  | [] => ret items
  | e :: r =>
      o <- process_entry src cfg e ;;
      fetch_loop src cfg r (append_opt items o)
  end.

Definition fetch_rss_source (src : Source) (cfg : Config) : M (list Item) :=
  url <- lift (getitem "url" (src_url src)) ;;
  fetch_loop src cfg (firstn 200 (feed url)) [].

Definition is_rss (src : Source) : bool :=
  match src_type src with
  | Some t => str_eqb t "rss"
  | None => false
  end.

Fixpoint main_loop (cfg : Config) (srcs : list Source)
         (all_items : list Item) : M (list Item) :=
  match srcs with
  | [] => ret all_items
  | src :: r =>
      if is_rss src
      then items <- fetch_rss_source src cfg ;;
           main_loop cfg r (all_items ++ items)
      else main_loop cfg r all_items
  end.

(** [main] up to the list [items_sorted] that the digest shows; the
    rendering and the delivery that follow are not part of the model. *)
Definition main (cfg : Config) : M (list Item) :=
  _ <- ensure_db ;;
  all_items <- main_loop cfg (get (sources cfg) []) [] ;;
  lift (items_sorted all_items cfg).

End Pipeline.

(** ** A wider alphabet: the sigmas

    Beyond U+00FF Python's [lower()] is no longer a character-wise map.
    This second model of normalization and fingerprinting runs over the
    code points U+0000..U+00FF together with the capital sigma (U+03A3),
    the small sigma (U+03C3) and the final small sigma (U+03C2); on these
    characters [lower()] is the character-wise map except for the capital
    sigma, which becomes the final sigma when a cased character stands
    before it and none after it, case-ignorable characters being skipped
    on both sides, and the small sigma otherwise. *)

Module Wide.

Inductive uchar : Type :=
| Latin (c : ascii)
| CapSigma
| SmallSigma
| FinalSigma.

Definition ustr : Type := list uchar.

Definition code (c : uchar) : Z :=
  match c with
  | Latin a => Z.of_N (N_of_ascii a)
  | CapSigma => 0x3A3
  | SmallSigma => 0x3C3
  | FinalSigma => 0x3C2
  end.

Definition is_space (c : uchar) : bool :=
  match c with
  | Latin a => is_space a
  | _ => false
  end.

(** The Unicode property Cased on the alphabet: the letters of
    U+0000..U+00FF, the ordinal indicators and the micro sign, and the
    sigmas. *)
Definition is_cased (c : uchar) : bool :=
  match c with
  | Latin a =>
      let n := N_of_ascii a in
      ((65 <=? n) && (n <=? 90) || (97 <=? n) && (n <=? 122)
       || (n =? 170) || (n =? 181) || (n =? 186)
       || (192 <=? n) && (n <=? 214) || (216 <=? n) && (n <=? 246)
       || (248 <=? n) && (n <=? 255))%N
  | _ => true
  end.

(** The Unicode property Case_Ignorable on the alphabet: apostrophe, full
    stop, colon, circumflex, grave, diaeresis, soft hyphen, macron, acute,
    middle dot, cedilla. *)
Definition is_case_ignorable (c : uchar) : bool :=
  match c with
  | Latin a =>
      let n := N_of_ascii a in
      ((n =? 39) || (n =? 46) || (n =? 58) || (n =? 94) || (n =? 96)
       || (n =? 168) || (n =? 173) || (n =? 175) || (n =? 180)
       || (n =? 183) || (n =? 184))%N
  | _ => false
  end.

(** The lowercase mapping of one character, out of context. *)
Definition to_lower (c : uchar) : uchar :=
  match c with
  | Latin a => Latin (to_lower a)
  | CapSigma => SmallSigma
  | SmallSigma => SmallSigma
  | FinalSigma => FinalSigma
  end.

(** Whether the first character of [s] that is not case-ignorable is a
    cased one. *)
Fixpoint cased_next (s : ustr) : bool :=
  match s with
  | [] => false
  | c :: r => if is_case_ignorable c then cased_next r else is_cased c
  end.

(** [s.lower()], with [before] the characters already read, the last one
    first. *)
Fixpoint lower_from (before s : ustr) : ustr :=
  match s with
  | [] => []
  | c :: r =>
      match c with
      | CapSigma =>
          if cased_next before && negb (cased_next r)
          then FinalSigma else SmallSigma
      | _ => to_lower c
      end :: lower_from (c :: before) r
  end.

Definition lower (s : ustr) : ustr := lower_from [] s.

Definition SP : uchar := Latin SP.
Definition BAR : uchar := Latin BAR.

Fixpoint resub_ws (in_run : bool) (s : ustr) : ustr :=
  match s with
  | [] => []
  | c :: r =>
      if is_space c
      then if in_run then resub_ws true r else SP :: resub_ws true r
      else c :: resub_ws false r
  end.

Fixpoint lstrip (s : ustr) : ustr :=
  match s with
  | [] => []
  | c :: r => if is_space c then lstrip r else s
  end.

Fixpoint rstrip (s : ustr) : ustr :=
  match s with
  | [] => []
  | c :: r =>
      match rstrip r with
      | [] => if is_space c then [] else [c]
      | r' => c :: r'
      end
  end.

Definition strip (s : ustr) : ustr := lstrip (rstrip s).

Definition normalize_text (s : ustr) : ustr :=
  lower (strip (resub_ws false s)).

(** [s.encode("utf-8")] for code points below U+0800. *)
Definition utf8 (s : ustr) : list Z :=
  flat_map (fun c =>
              let n := code c in
              if (n <? 128)%Z then [n]
              else [Z.lor 0xC0 (Z.shiftr n 6); Z.lor 0x80 (Z.land n 0x3F)])
           s.

Definition item_base (title link : ustr) : ustr :=
  normalize_text title ++ BAR :: normalize_text link.

Definition item_id (title link : ustr) : str :=
  sha256_hexdigest (utf8 (item_base title link)).

(** A string of U+0000..U+00FF as a string of the wider alphabet. *)
Definition embed (s : str) : ustr := map Latin s.

End Wide.

(** ** HTML escaping: [esc] of [build_email_html] *)

Definition AMP : ascii := "&"%char.

(** [s.replace(c, rep)] for a pattern [c] of one character. *)
Definition replace_char (c : ascii) (rep : str) (s : str) : str :=
  flat_map (fun x => if ascii_dec x c then rep else [x]) s.

(** [esc(s)]:
    [(s or "").replace("&", "&amp;").replace("<", "&lt;").replace(">", "&gt;")] *)
Definition esc (s : str) : str :=
  replace_char GT "&gt;" (replace_char LT "&lt;" (replace_char AMP "&amp;" s)).

(** ** Vocabulary of the properties *)



(** Whether the character before the end of [a] is whitespace ([f] when
    [a] is empty): the [in_run] flag of [resub_ws] after reading [a]. *)
Fixpoint run_after (f : bool) (a : str) : bool :=
  match a with
  | [] => f
  | c :: r => run_after (is_space c) r
  end.

(** [a] may stand before [b] in the digest: its score is higher, or the
    scores are equal and its publication date is the same or later (a
    greater string). *)
Definition ranks_before (a b : Item) : Prop :=
  (score b < score a)%Z
  \/ (score a = score b
      /\ (published a = published b
          \/ str_ltb (published b) (published a) = true)).

(** The fingerprint that [fetch_rss_source] computes for an entry. *)
Definition entry_id (e : Entry) : str := item_id (entry_title e) (entry_link e).

(** The item that the loop body of [fetch_rss_source] builds for an entry. *)
Definition item_of (dateparse : str -> option str) (name : str) (src : Source)
           (e : Entry) (sc : Z) : Item :=
  mkItem name (str_or (entry_title e) "(no title)") (entry_link e)
         (parse_date dateparse e)
         (firstn 500 (strip_tags (entry_summary e)))
         (get (src_tags src) []) sc.

(** The ledger of [w'] holds every fingerprint that the ledger of [w] holds. *)
Definition ledger_le (w w' : world) : Prop :=
  forall iid, has_id iid (seen w) = true -> has_id iid (seen w') = true.

(** An entry is settled in a world when scoring it raises nothing and, if
    it is relevant, its fingerprint is in the ledger. *)
Definition settled (cfg : Config) (w : world) (e : Entry) : Prop :=
  match score_item (entry_blob e) cfg with
  | Raise _ => False
  | Ok (keep, _) => keep = true -> has_id (entry_id e) (seen w) = true
  end.

(** A source is settled when, if [main] reads it, it has a url and the
    entries read from it are settled. *)
Definition source_settled (feed : str -> list Entry) (cfg : Config) (w : world)
           (src : Source) : Prop :=
  is_rss src = true ->
  exists url, src_url src = Some url
              /\ Forall (settled cfg w) (firstn 200 (feed url)).

(** [mark_seen] called for each id of a list, in order. *)
Fixpoint mark_each (clock : nat -> str) (ids : list str) : M unit :=
  match ids with
  | [] => ret tt
  | iid :: r => _ <- mark_seen clock iid ;; mark_each clock r
  end.

(** The worlds that [w] can become through any number of runs of [main],
    over any configurations and feeds. *)
Inductive runs_to (clock : nat -> str) : world -> world -> Prop :=
| runs_refl (w : world) : runs_to clock w w
| runs_step (dateparse : str -> option str) (feed : str -> list Entry)
            (cfg : Config) (w w1 w2 : world) (r : result (list Item)) :
    main clock dateparse feed cfg w = (r, w1) ->
    runs_to clock w1 w2 ->
    runs_to clock w w2.

(** What [esc] writes for one character. *)
Definition esc_char (c : ascii) : str :=
  if ascii_dec c AMP then "&amp;" : str
  else if ascii_dec c LT then "&lt;" : str
  else if ascii_dec c GT then "&gt;" : str
  else [c].

(** Reading back the bytes that [utf8] writes. *)
Fixpoint utf8_decode (bs : list Z) : str :=
  match bs with
  | [] => []
  | b0 :: r =>
      if (b0 <? 128)%Z then ascii_of_N (Z.to_N b0) :: utf8_decode r
      else match r with
           | [] => []
           | b1 :: r' =>
               ascii_of_N (Z.to_N (Z.lor (Z.shiftl (Z.land b0 3) 6) (Z.land b1 0x3F)))
               :: utf8_decode r'
           end
  end.

(** The characters of a hexadecimal digest. *)
Definition hex_digits : str := "0123456789abcdef".

(** What every item of a digest satisfies. *)
Definition item_ok (it : Item) : Prop :=
  (60 <= score it <= 100)%Z
  /\ title it <> []
  /\ (List.length (summary it) <= 500)%nat.

(** Equality of sort keys. *)
Definition key_eqb (k1 k2 : Z * str) : bool :=
  (fst k1 =? fst k2)%Z && str_eqb (snd k1) (snd k2).

(** The ids of the ledger, in insertion order. *)
Definition ledger_ids (w : world) : list str := map fst (seen w).

(** From [w] to [w'] the ledger got [n] new rows at its end, for ids it
    did not hold, no two for one id, and the clock was read [n] times. *)
Definition grows (n : nat) (w w' : world) : Prop :=
  exists rows : list row,
    seen w' = seen w ++ rows
    /\ List.length rows = n
    /\ ticks w' = (ticks w + n)%nat
    /\ (forall r, In r rows -> has_id (fst r) (seen w) = false)
    /\ NoDup (map fst rows).


(** ** Example data *)

Definition ex_clock (n : nat) : str :=
  "2024-03-01T00:00:" ++ [ascii_of_nat (48 + n / 10 mod 10); ascii_of_nat (48 + n mod 10)].

(** A stand-in for the date parser: the first ten characters. *)
Definition ex_dateparse (s : str) : option str := Some (firstn 10 s).

Definition ex_item (sc : Z) (date : str) : Item :=
  mkItem "feed" "(no title)" [] date [] [] sc.

Definition ex_entry1 : Entry :=
  mkEntry (Some ("Cloud tender" : str)) (Some ("http://x/1" : str))
          (Some ("<p>hosting</p>" : str)) None
          (Some ("2024-01-01T10:00:00Z" : str)) None None.

Definition ex_entry2 : Entry :=
  mkEntry (Some ("Security RFP bid" : str)) (Some ("http://x/2" : str))
          None (Some ("audit" : str))
          None (Some ("2024-02-01T10:00:00Z" : str)) None.

(** [ex_entry1] edited: same title and link, other content and dates. *)
Definition ex_entry1_edited : Entry :=
  mkEntry (Some ("Cloud tender" : str)) (Some ("http://x/1" : str))
          (Some ("<p>hosting, extended procurement</p>" : str))
          (Some ("new" : str))
          (Some ("2024-05-01T10:00:00Z" : str)) None None.

Definition ex_feed (url : str) : list Entry := [ex_entry1; ex_entry2].

Definition ex_source : Source :=
  mkSource (Some ("feed" : str)) (Some ("rss" : str)) (Some ("http://x/rss" : str)) None.

Definition ex_keywords : Keywords :=
  mkKeywords None None (Some ["cloud" : str; "security" : str]).

Definition ex_cfg : Config :=
  mkConfig (Some [ex_source]) (Some ex_keywords)
           (Some (mkEmail (Some ("Digest" : str)) (Some 1%Z))).

Definition ex_world : world := mkWorld [] 0.

(** A first run over the example feed, from an empty ledger. *)
Definition ex_run1 : result (list Item) * world :=
  main ex_clock ex_dateparse ex_feed ex_cfg ex_world.

(** * Properties *)

(** ** Strings and normalization *)

Lemma str_eqb_eq (a b : str) : str_eqb a b = true <-> a = b.
Proof.
  unfold str_eqb. destruct (list_eq_dec ascii_dec a b); split; congruence.
Qed.

Lemma str_eqb_refl (a : str) : str_eqb a a = true.
Proof. now apply str_eqb_eq. Qed.

Ltac each_char c :=
  destruct c as [[] [] [] [] [] [] [] []]; vm_compute.

Lemma is_space_to_lower (c : ascii) : is_space (to_lower c) = is_space c.
Proof. each_char c; reflexivity. Qed.

Lemma to_lower_bar (c : ascii) : to_lower c = BAR -> c = BAR.
Proof. each_char c; intro H; first [reflexivity | discriminate H]. Qed.

Lemma to_lower_idem (c : ascii) : to_lower (to_lower c) = to_lower c.
Proof. each_char c; reflexivity. Qed.

Lemma resub_ws_lower (f : bool) (s : str) :
  resub_ws f (lower s) = lower (resub_ws f s).
Proof.
  revert f. induction s as [|c r IH]; intro f; simpl; [reflexivity|].
  rewrite is_space_to_lower.
  destruct (is_space c); [destruct f|]; simpl; now rewrite IH.
Qed.

Lemma lstrip_lower (s : str) : lstrip (lower s) = lower (lstrip s).
Proof.
  induction s as [|c r IH]; simpl; [reflexivity|].
  rewrite is_space_to_lower. now destruct (is_space c).
Qed.

Lemma rstrip_lower (s : str) : rstrip (lower s) = lower (rstrip s).
Proof.
  induction s as [|c r IH]; simpl; [reflexivity|].
  rewrite IH, is_space_to_lower.
  destruct (rstrip r); simpl; [now destruct (is_space c)|reflexivity].
Qed.


Lemma resub_ws_app (f : bool) (a b : str) :
  resub_ws f (a ++ b) = resub_ws f a ++ resub_ws (run_after f a) b.
Proof.
  revert f. induction a as [|c r IH]; intro f; simpl; [reflexivity|].
  destruct (is_space c); [destruct f|]; simpl; now rewrite IH.
Qed.


Lemma rstrip_space_snoc (c : ascii) (s : str) :
  is_space c = true -> rstrip (s ++ [c]) = rstrip s.
Proof.
  intro H. induction s as [|d r IH]; simpl; [now rewrite H|now rewrite IH].
Qed.




(** Normalization puts no character into a string other than the space
    and the lowercase forms of the characters it reads. *)
Lemma in_resub_ws (c : ascii) (f : bool) (s : str) :
  In c (resub_ws f s) -> c = SP \/ In c s.
Proof.
  revert f. induction s as [|d r IH]; intro f; simpl; [tauto|].
  destruct (is_space d); [destruct f|]; simpl; intro H.
  - destruct (IH _ H); auto.
  - destruct H as [H|H]; [now left|]. destruct (IH _ H); auto.
  - destruct H as [H|H]; [now right; left|]. destruct (IH _ H); auto.
Qed.

Lemma in_lstrip (c : ascii) (s : str) : In c (lstrip s) -> In c s.
Proof.
  induction s as [|d r IH]; simpl; [tauto|].
  destruct (is_space d); simpl; tauto.
Qed.

Lemma in_rstrip (c : ascii) (s : str) : In c (rstrip s) -> In c s.
Proof.
  induction s as [|d r IH]; simpl; [tauto|].
  destruct (rstrip r) as [|x y].
  - destruct (is_space d); simpl; tauto.
  - simpl in *. tauto.
Qed.

Lemma normalize_text_bar (s : str) : In BAR (normalize_text s) -> In BAR s.
Proof.
  unfold normalize_text, lower, strip. intro H.
  apply in_map_iff in H. destruct H as (c & E & H).
  apply to_lower_bar in E. subst c.
  apply in_lstrip, in_rstrip, in_resub_ws in H.
  destruct H as [H|H]; [discriminate H|exact H].
Qed.

Lemma app_bar_inj (x y u v : str) :
  ~ In BAR x -> ~ In BAR y ->
  x ++ BAR :: u = y ++ BAR :: v -> x = y /\ u = v.
Proof.
  revert y. induction x as [|a x IH]; intros [|b y] Hx Hy E; simpl in *.
  - injection E as E. now split.
  - injection E as E _. exfalso. apply Hy. now left.
  - injection E as E _. exfalso. apply Hx. now left.
  - injection E as E1 E2. subst b.
    destruct (IH y) as [-> ->]; auto.
Qed.

(** ** The fingerprint *)

Example sha256_constants :
  nth 0 Sha256.K 0%Z = 0x428a2f98%Z /\ nth 63 Sha256.K 0%Z = 0xc67178f2%Z
  /\ nth 0 Sha256.H0 0%Z = 0x6a09e667%Z /\ nth 7 Sha256.H0 0%Z = 0x5be0cd19%Z.
Proof. repeat split. Qed.

Example sha256_abc :
  sha256_hexdigest (utf8 "abc") =
  "ba7816bf8f01cfea414140de5dae2223b00361a396177a9cb410ff61f20015ad".
Proof. vm_compute. reflexivity. Qed.



(** On strings of U+0000..U+00FF the model over the wider alphabet is
    the model above. *)
Lemma wide_resub_ws_embed (f : bool) (s : str) :
  Wide.resub_ws f (Wide.embed s) = Wide.embed (resub_ws f s).
Proof.
  revert f. induction s as [|c r IH]; intro f; simpl; [reflexivity|].
  destruct (is_space c); [destruct f|]; simpl; now rewrite IH.
Qed.

Lemma wide_lstrip_embed (s : str) :
  Wide.lstrip (Wide.embed s) = Wide.embed (lstrip s).
Proof.
  induction s as [|c r IH]; simpl; [reflexivity|].
  now destruct (is_space c).
Qed.

Lemma wide_rstrip_embed (s : str) :
  Wide.rstrip (Wide.embed s) = Wide.embed (rstrip s).
Proof.
  unfold Wide.embed. induction s as [|c r IH]; [reflexivity|].
  cbn [map Wide.rstrip rstrip]. rewrite IH.
  destruct (rstrip r); simpl; [now destruct (is_space c)|reflexivity].
Qed.

Lemma wide_lower_from_embed (before : Wide.ustr) (s : str) :
  Wide.lower_from before (Wide.embed s) = Wide.embed (lower s).
Proof.
  unfold Wide.embed, lower. revert before.
  induction s as [|c r IH]; intro pre; [reflexivity|].
  cbn [map Wide.lower_from Wide.to_lower]. now rewrite IH.
Qed.

Lemma wide_normalize_text_embed (s : str) :
  Wide.normalize_text (Wide.embed s) = Wide.embed (normalize_text s).
Proof.
  unfold Wide.normalize_text, Wide.strip, Wide.lower, normalize_text, strip.
  now rewrite wide_resub_ws_embed, wide_rstrip_embed, wide_lstrip_embed,
    wide_lower_from_embed.
Qed.

Lemma wide_utf8_embed (s : str) : Wide.utf8 (Wide.embed s) = utf8 s.
Proof.
  unfold Wide.utf8, utf8, Wide.embed. rewrite flat_map_concat_map, map_map.
  now rewrite <- flat_map_concat_map.
Qed.

Lemma wide_item_id_embed (t l : str) :
  Wide.item_id (Wide.embed t) (Wide.embed l) = item_id t l.
Proof.
  unfold Wide.item_id, Wide.item_base, item_id, item_base.
  rewrite !wide_normalize_text_embed. f_equal.
  rewrite <- wide_utf8_embed. f_equal.
  unfold Wide.embed, Wide.BAR. now rewrite map_app.
Qed.


(** C8, as the document has it, fails: normalization keeps a [|] of its
    input, and two pairs with different normalized titles and links have
    the same pre-hash string, hence the same fingerprint. *)
Lemma separator_collision :
  In BAR (normalize_text "a|b")
  /\ normalize_text "a|b" <> normalize_text "a"
  /\ normalize_text "c" <> normalize_text "b|c"
  /\ item_base "a|b" "c" = item_base "a" "b|c"
  /\ item_id "a|b" "c" = item_id "a" "b|c".
Proof.
  repeat split; try (intro H; vm_compute in H; discriminate H);
    vm_compute; tauto.
Qed.

(** C8, amended.  Normalization never introduces the separator: its
    output holds a [|] only when its input does.  On titles without [|]
    the pre-hash string determines the normalized title and the
    normalized link. *)
Theorem item_base_injective_no_bar (t1 l1 t2 l2 : str) :
  ~ In BAR t1 ->
  ~ In BAR t2 ->
  item_base t1 l1 = item_base t2 l2 ->
  (normalize_text t1 = normalize_text t2
   /\ normalize_text l1 = normalize_text l2)
  /\ (forall s : str, In BAR (normalize_text s) -> In BAR s).
Proof.
  intros H1 H2 E. split; [|exact normalize_text_bar].
  unfold item_base in E. apply app_bar_inj in E; [exact E| |].
  - intro H. now apply H1, normalize_text_bar.
  - intro H. now apply H2, normalize_text_bar.
Qed.

Lemma item_base_injective_no_bar_witness :
  ~ In BAR ("Open  Tender" : str)
  /\ ~ In BAR ("open tender" : str)
  /\ item_base "Open  Tender" "http://x/y|z"
     = item_base "open tender" "HTTP://x/y|z"
  /\ normalize_text "Open  Tender" = normalize_text "open tender"
  /\ normalize_text "http://x/y|z" = normalize_text "HTTP://x/y|z".
Proof.
  assert (H1 : ~ In BAR ("Open  Tender" : str)).
  { vm_compute. intuition discriminate. }
  assert (H2 : ~ In BAR ("open tender" : str)).
  { vm_compute. intuition discriminate. }
  assert (E : item_base "Open  Tender" "http://x/y|z"
              = item_base "open tender" "HTTP://x/y|z").
  { vm_compute. reflexivity. }
  split; [exact H1|split; [exact H2|split; [exact E|]]].
  exact (proj1 (item_base_injective_no_bar _ _ _ _ H1 H2 E)).
Defined.

(** ** The relevance scorer *)

Lemma starts_with_spec (x t : str) :
  starts_with x t = true <-> exists b, t = x ++ b.
Proof.
  revert t. induction x as [|a x IH]; intros t; simpl.
  - split; [intros _; now exists t|reflexivity].
  - destruct t as [|b t].
    + split; [discriminate|intros (r & E); discriminate E].
    + destruct (ascii_dec a b) as [->|N].
      * rewrite IH. split; intros (r & E); exists r; congruence.
      * split; [discriminate|intros (r & E); congruence].
Qed.

(** [contains t x] is Python's [x in t]: [x] is a substring of [t]. *)
Lemma contains_spec (t x : str) :
  contains t x = true <-> exists a b, t = a ++ x ++ b.
Proof.
  induction t as [|c t IH].
  - simpl. rewrite orb_false_r, starts_with_spec. split.
    + intros (b & E). now exists [], b.
    + intros (a & b & E). destruct a; [now exists b|discriminate E].
  - simpl. rewrite orb_true_iff, IH, starts_with_spec. split.
    + intros [(b & E)|(a & b & E)].
      * now exists [], b.
      * exists (c :: a), b. simpl. now rewrite E.
    + intros (a & b & E). destruct a as [|d a].
      * left. now exists b.
      * right. exists a, b. simpl in E. congruence.
Qed.

Lemma count_if_bounds {A : Type} (p : A -> bool) (l : list A) :
  (0 <= count_if p l <= Z.of_nat (List.length l))%Z.
Proof.
  unfold count_if. pose proof (filter_length_le p l). lia.
Qed.

(** The body of [score_item] once [cfg["keywords"]] is there. *)
Lemma score_item_eq (text : str) (cfg : Config) (kw : Keywords) :
  keywords cfg = Some kw ->
  score_item text cfg =
  if existsb (fun x => contains (normalize_text text) (normalize_text x))
             (get (exclude_any kw) [])
  then Ok (false, 0%Z)
  else if truthy (get (must_have_any kw) [])
          && negb (existsb (fun x => contains (normalize_text text) (normalize_text x))
                           (get (must_have_any kw) []))
       then Ok (false, 0%Z)
       else Ok (true,
                Z.min (60
                       + 5 * count_if (fun x => contains (normalize_text text)
                                                         (normalize_text x))
                                      (get (nice_to_have_any kw) [])
                       + 5 * count_if (fun x => contains (normalize_text text) x)
                                      bonus_terms)
                      100).
Proof. intro K. unfold score_item. rewrite K. reflexivity. Qed.

(** C4.  With a keyword policy in the configuration, a text whose
    normalization contains the normalization of some phrase of
    [exclude_any] scores (false, 0), whatever the other tiers match; and
    so does a text that contains no normalized phrase of a non-empty
    [must_have_any]. *)
Theorem score_item_gates (text : str) (cfg : Config) (kw : Keywords) :
  keywords cfg = Some kw ->
  (exists x, In x (get (exclude_any kw) [])
             /\ contains (normalize_text text) (normalize_text x) = true)
  \/ (get (must_have_any kw) [] <> []
      /\ forall x, In x (get (must_have_any kw) []) ->
                   contains (normalize_text text) (normalize_text x) = false) ->
  score_item text cfg = Ok (false, 0%Z).
Proof.
  intros K H. unfold score_item. rewrite K. simpl.
  destruct (existsb _ (get (exclude_any kw) [])) eqn:E; [reflexivity|].
  destruct H as [(x & Hx & Hc)|(Hne & Hnone)].
  - assert (T : existsb (fun x => contains (normalize_text text) (normalize_text x))
                        (get (exclude_any kw) []) = true)
      by (apply existsb_exists; now exists x).
    congruence.
  - destruct (get (must_have_any kw) []) as [|m ms] eqn:Em; [congruence|].
    assert (F : existsb (fun x => contains (normalize_text text) (normalize_text x))
                        (m :: ms) = false).
    { apply not_true_is_false. intro T. apply existsb_exists in T.
      destruct T as (x & Hx & Hc). rewrite (Hnone x Hx) in Hc. discriminate Hc. }
    cbv zeta. rewrite F. reflexivity.
Qed.

Lemma score_item_gates_witness :
  score_item "RFP cancelled"
    (mkConfig None
       (Some (mkKeywords (Some ["cancelled" : str]) (Some ["rfp" : str]) None))
       None) = Ok (false, 0%Z)
  /\ score_item "general news"
       (mkConfig None (Some (mkKeywords None (Some ["tender" : str]) None)) None)
     = Ok (false, 0%Z).
Proof.
  split.
  - apply (@score_item_gates "RFP cancelled"
             (mkConfig None
                (Some (mkKeywords (Some ["cancelled" : str]) (Some ["rfp" : str]) None))
                None)
             (mkKeywords (Some ["cancelled" : str]) (Some ["rfp" : str]) None)
             eq_refl).
    left. exists ("cancelled" : str). split; [now left|reflexivity].
  - apply (@score_item_gates "general news"
             (mkConfig None (Some (mkKeywords None (Some ["tender" : str]) None)) None)
             (mkKeywords None (Some ["tender" : str]) None) eq_refl).
    right. split; [discriminate|].
    intros x [<-|[]]. reflexivity.
Defined.

(** C5.  A relevant text scores 60, plus 5 for each phrase of
    [nice_to_have_any] whose normalization is a substring of the normalized
    text, plus 5 for each of the seven built-in terms that is one, cut at
    100; so the score lies between 60 and 100.  With
    [nice_to_have_any = ["cloud", "security"]], a text that contains both
    and, of the built-in terms, "rfp" alone scores 75. *)
Theorem score_item_accumulates (text : str) (cfg : Config) (kw : Keywords) (s : Z) :
  keywords cfg = Some kw ->
  score_item text cfg = Ok (true, s) ->
  s = Z.min (60
             + 5 * count_if (fun x => contains (normalize_text text) (normalize_text x))
                            (get (nice_to_have_any kw) [])
             + 5 * count_if (fun x => contains (normalize_text text) x) bonus_terms)
            100
  /\ (60 <= s <= 100)%Z
  /\ List.length bonus_terms = 7%nat
  /\ (get (nice_to_have_any kw) [] = ["cloud" : str; "security" : str] ->
      contains (normalize_text text) "cloud" = true ->
      contains (normalize_text text) "security" = true ->
      contains (normalize_text text) "rfp" = true ->
      (forall b, In b bonus_terms -> b <> ("rfp" : str) ->
                 contains (normalize_text text) b = false) ->
      s = 75%Z).
Proof.
  intros K H. rewrite (score_item_eq text cfg kw K) in H.
  destruct (existsb _ (get (exclude_any kw) [])); [discriminate H|].
  destruct (truthy _ && negb _); [discriminate H|].
  match type of H with
  | Ok (true, ?v) = _ => remember v as sc eqn:Es
  end.
  injection H as H. subst sc s.
  pose proof (count_if_bounds
                (fun x => contains (normalize_text text) (normalize_text x))
                (get (nice_to_have_any kw) [])) as B1.
  pose proof (count_if_bounds
                (fun x => contains (normalize_text text) x) bonus_terms) as B2.
  split; [reflexivity|]. split; [lia|]. split; [reflexivity|].
  intros N C1 C2 C3 C4. rewrite N.
  assert (C1' : contains (normalize_text text) (normalize_text "cloud") = true)
    by exact C1.
  assert (C2' : contains (normalize_text text) (normalize_text "security") = true)
    by exact C2.
  unfold count_if, bonus_terms in *. cbn [filter].
  rewrite C1', C2', C3.
  rewrite !C4 by (cbn [In]; first [discriminate | intuition congruence]).
  reflexivity.
Qed.

Lemma score_item_accumulates_witness :
  score_item "Cloud security RFP"
    (mkConfig None
       (Some (mkKeywords None None (Some ["cloud" : str; "security" : str])))
       None) = Ok (true, 75%Z)
  /\ (60 <= 75 <= 100)%Z.
Proof.
  split; [vm_compute; reflexivity|].
  exact (proj1 (proj2
    (score_item_accumulates "Cloud security RFP"
       (mkConfig None
          (Some (mkKeywords None None (Some ["cloud" : str; "security" : str])))
          None)
       (mkKeywords None None (Some ["cloud" : str; "security" : str]))
       75%Z eq_refl eq_refl))).
Defined.

(** C9, as the document has it, fails: a keywords section that lacks
    [must_have_any], [exclude_any] or both raises nothing, and a text that
    matches no keyword at all is scored relevant. *)
Lemma missing_tiers_not_fatal :
  score_item "general news"
    (mkConfig None (Some (mkKeywords (Some ["cancelled" : str]) None None)) None)
  = Ok (true, 60%Z)
  /\ score_item "general news"
       (mkConfig None (Some (mkKeywords None (Some ["news" : str]) None)) None)
     = Ok (true, 60%Z)
  /\ score_item "general news"
       (mkConfig None (Some (mkKeywords None None None)) None)
     = Ok (true, 60%Z)
  /\ score_item "general news"
       (mkConfig None (Some (mkKeywords None None None)) None)
     = score_item "general news"
         (mkConfig None (Some (mkKeywords (Some []) (Some []) (Some []))) None).
Proof. repeat split; vm_compute; reflexivity. Qed.

(** C9, amended.  Scoring raises [KeyError] when the configuration has no
    keywords section at all.  A keywords section that lacks a tier is
    scored as if that tier were the empty list; with neither [exclude_any]
    nor [must_have_any] every text is relevant, with a score of at least
    60. *)
Theorem score_item_missing_keys
        (text : str) (srcs : option (list Source)) (em : option Email)
        (kw : Keywords) (nice : option (list str)) :
  score_item text (mkConfig srcs None em) = Raise (KeyError "keywords")
  /\ score_item text (mkConfig srcs (Some kw) em)
     = score_item text
         (mkConfig srcs
            (Some (mkKeywords (Some (get (exclude_any kw) []))
                              (Some (get (must_have_any kw) []))
                              (Some (get (nice_to_have_any kw) []))))
            em)
  /\ exists s, score_item text (mkConfig srcs (Some (mkKeywords None None nice)) em)
               = Ok (true, s)
               /\ (60 <= s)%Z.
Proof.
  split; [reflexivity|]. split; [reflexivity|].
  rewrite (score_item_eq text (mkConfig srcs (Some (mkKeywords None None nice)) em)
             (mkKeywords None None nice) eq_refl).
  cbn [exclude_any must_have_any get existsb truthy andb].
  eexists. split; [reflexivity|].
  pose proof (count_if_bounds
                (fun x => contains (normalize_text text) (normalize_text x))
                (get (nice_to_have_any (mkKeywords None None nice)) [])) as B1.
  pose proof (count_if_bounds
                (fun x => contains (normalize_text text) x) bonus_terms) as B2.
  lia.
Qed.

(** ** Ranking *)

Lemma code_inj (x y : ascii) : code x = code y -> x = y.
Proof.
  unfold code. intro H.
  rewrite <- (ascii_N_embedding x), <- (ascii_N_embedding y). now rewrite H.
Qed.

Ltac bool_to_prop :=
  repeat match goal with
         | H : _ || _ = true |- _ => apply orb_true_iff in H
         | H : _ && _ = true |- _ => apply andb_true_iff in H; destruct H
         | H : (_ <? _)%N = true |- _ => apply N.ltb_lt in H
         | H : (_ =? _)%N = true |- _ => apply N.eqb_eq in H
         | H : (_ <? _)%Z = true |- _ => apply Z.ltb_lt in H
         | H : (_ =? _)%Z = true |- _ => apply Z.eqb_eq in H
         | H : (_ <? _)%N = false |- _ => apply N.ltb_ge in H
         | H : (_ =? _)%N = false |- _ => apply N.eqb_neq in H
         | H : (_ <? _)%Z = false |- _ => apply Z.ltb_ge in H
         | H : (_ =? _)%Z = false |- _ => apply Z.eqb_neq in H
         end.

Lemma str_ltb_irrefl (a : str) : str_ltb a a = false.
Proof.
  induction a as [|x a IH]; simpl; [reflexivity|].
  rewrite N.ltb_irrefl, N.eqb_refl. exact IH.
Qed.

Lemma str_ltb_trans (a b c : str) :
  str_ltb a b = true -> str_ltb b c = true -> str_ltb a c = true.
Proof.
  revert b c. induction a as [|x a IH]; intros [|y b] [|z c]; simpl;
    try discriminate; try reflexivity.
  intros H1 H2. bool_to_prop. apply orb_true_iff.
  destruct H1 as [H1|H1], H2 as [H2|H2]; bool_to_prop.
  - left. apply N.ltb_lt. lia.
  - left. apply N.ltb_lt. lia.
  - left. apply N.ltb_lt. lia.
  - right. apply andb_true_iff. split; [apply N.eqb_eq; lia|eauto].
Qed.

Lemma str_ltb_total (a b : str) :
  str_ltb a b = false -> a = b \/ str_ltb b a = true.
Proof.
  revert b. induction a as [|x a IH]; intros [|y b]; simpl; auto;
    try discriminate.
  intro H. apply orb_false_iff in H. destruct H as [H1 H2].
  bool_to_prop.
  destruct (N.eq_dec (code x) (code y)) as [E|N].
  - rewrite E, N.eqb_refl in H2. simpl in H2.
    destruct (IH b H2) as [->|L].
    + left. now rewrite (code_inj x y E).
    + right. rewrite E, N.eqb_refl, L. apply orb_true_r.
  - right. apply orb_true_iff. left. apply N.ltb_lt. lia.
Qed.

Lemma key_ltb_false_ranks (a b : Item) :
  key_ltb (key a) (key b) = false <-> ranks_before a b.
Proof.
  unfold key_ltb, key, ranks_before. simpl. split.
  - intro H. apply orb_false_iff in H. destruct H as [H1 H2]. bool_to_prop.
    destruct (Z.eq_dec (score a) (score b)) as [E|N]; [|left; lia].
    right. split; [exact E|].
    rewrite E, Z.eqb_refl in H2. simpl in H2.
    now apply str_ltb_total.
  - intros [H|(E & [P|P])]; apply orb_false_iff; split;
      try (apply Z.ltb_ge; lia).
    + apply andb_false_iff. left. apply Z.eqb_neq. lia.
    + rewrite P, str_ltb_irrefl. apply andb_false_r.
    + apply andb_false_iff. right. apply not_true_is_false. intro Q.
      pose proof (str_ltb_trans _ _ _ P Q) as R.
      rewrite str_ltb_irrefl in R. discriminate R.
Qed.

Lemma key_ltb_true_ranks (a b : Item) :
  key_ltb (key a) (key b) = true -> ranks_before b a.
Proof.
  unfold key_ltb, key, ranks_before. simpl. intro H. bool_to_prop.
  destruct H as [H|H]; bool_to_prop; [left; lia|].
  right. split; [lia|now right].
Qed.

Lemma ranks_before_trans (a b c : Item) :
  ranks_before a b -> ranks_before b c -> ranks_before a c.
Proof.
  unfold ranks_before.
  intros [H1|(E1 & P1)] [H2|(E2 & P2)]; try (left; lia).
  right. split; [lia|].
  destruct P1 as [P1|P1], P2 as [P2|P2].
  - left. congruence.
  - right. now rewrite P1.
  - right. now rewrite <- P2.
  - right. eapply str_ltb_trans; eauto.
Qed.

Lemma insert_desc_perm (x : Item) (l : list Item) :
  Permutation (insert_desc x l) (x :: l).
Proof.
  induction l as [|y r IH]; simpl; [reflexivity|].
  destruct (key_ltb (key x) (key y)); [|reflexivity].
  rewrite IH. apply perm_swap.
Qed.

Lemma sorted_desc_perm (items : list Item) :
  Permutation (sorted_desc items) items.
Proof.
  induction items as [|x r IH]; simpl; [reflexivity|].
  rewrite insert_desc_perm. now apply perm_skip.
Qed.

Lemma insert_desc_sorted (x : Item) (l : list Item) :
  StronglySorted ranks_before l ->
  StronglySorted ranks_before (insert_desc x l).
Proof.
  induction 1 as [|y r S IH F]; simpl.
  - repeat constructor.
  - destruct (key_ltb (key x) (key y)) eqn:E.
    + constructor; [exact IH|].
      apply (Permutation_Forall (Permutation_sym (insert_desc_perm x r))).
      constructor; [now apply key_ltb_true_ranks|exact F].
    + apply key_ltb_false_ranks in E.
      constructor; [now constructor|].
      constructor; [exact E|].
      eapply Forall_impl; [|exact F].
      intros z Hz. eapply ranks_before_trans; eauto.
Qed.

Lemma sorted_desc_sorted (items : list Item) :
  StronglySorted ranks_before (sorted_desc items).
Proof.
  induction items as [|x r IH]; simpl; [constructor|].
  now apply insert_desc_sorted.
Qed.

(** C6.  With a configured [max_items] that is not negative, the digest is
    the first [max_items] items of the accumulated items in ranking order:
    a rearrangement of the items in which every item ranks before all the
    items after it, by score and then by publication date, both
    descending.  Items of scores 80, 95, 80 published 2024-01-01,
    2024-01-01, 2024-02-01 come out as the second, the third, the first. *)
Theorem items_sorted_ranking (items : list Item) (cfg : Config) (em : Email) (n : Z) :
  email cfg = Some em ->
  max_items em = Some n ->
  (0 <= n)%Z ->
  items_sorted items cfg = Ok (firstn (Z.to_nat n) (sorted_desc items))
  /\ Permutation (sorted_desc items) items
  /\ StronglySorted ranks_before (sorted_desc items)
  /\ (forall i1 i2 i3 : Item,
        key i1 = (80%Z, "2024-01-01" : str) ->
        key i2 = (95%Z, "2024-01-01" : str) ->
        key i3 = (80%Z, "2024-02-01" : str) ->
        sorted_desc [i1; i2; i3] = [i2; i3; i1]).
Proof.
  intros E M N. split; [|split; [|split]].
  - unfold items_sorted, slice_to. rewrite E. simpl. rewrite M. simpl.
    destruct (n <? 0)%Z eqn:L; [bool_to_prop; lia|reflexivity].
  - apply sorted_desc_perm.
  - apply sorted_desc_sorted.
  - intros i1 i2 i3 K1 K2 K3. unfold sorted_desc.
    repeat (cbn [fold_right insert_desc]; rewrite ?K1, ?K2, ?K3;
            match goal with
            | |- context [key_ltb ?a ?b] =>
                let v := eval vm_compute in (key_ltb a b) in
                change (key_ltb a b) with v
            end; cbv iota).
    reflexivity.
Qed.

Lemma items_sorted_ranking_witness :
  items_sorted [ex_item 80 "2024-01-01"; ex_item 95 "2024-01-01";
                ex_item 80 "2024-02-01"] ex_cfg
  = Ok [ex_item 95 "2024-01-01"].
Proof.
  assert (N : (0 <= 1)%Z) by lia.
  exact (proj1 (items_sorted_ranking
                  [ex_item 80 "2024-01-01"; ex_item 95 "2024-01-01";
                   ex_item 80 "2024-02-01"]
                  ex_cfg (mkEmail (Some ("Digest" : str)) (Some 1%Z)) 1%Z
                  eq_refl eq_refl N)).
Defined.

(** ** The seen ledger *)

Lemma has_id_app (iid : str) (a b : list row) :
  has_id iid (a ++ b) = has_id iid a || has_id iid b.
Proof. unfold has_id. apply existsb_app. Qed.

Lemma has_id_insert (iid : str) (r : row) (rows : list row) :
  has_id iid (insert_or_ignore r rows) = has_id iid rows || str_eqb (fst r) iid.
Proof.
  unfold insert_or_ignore. destruct (has_id (fst r) rows) eqn:E.
  - destruct (str_eqb (fst r) iid) eqn:Q; [|now rewrite orb_false_r].
    apply str_eqb_eq in Q. subst iid. now rewrite E.
  - rewrite has_id_app. simpl. now rewrite orb_false_r.
Qed.

Lemma select_id_app (iid : str) (a b : list row) :
  select_id iid (a ++ b) = select_id iid a ++ select_id iid b.
Proof. unfold select_id. apply filter_app. Qed.

Lemma select_id_absent (iid : str) (rows : list row) :
  has_id iid rows = false -> select_id iid rows = [].
Proof.
  unfold has_id, select_id. induction rows as [|r rows IH]; simpl; [reflexivity|].
  intro H. apply orb_false_iff in H. destruct H as [H1 H2].
  rewrite H1. now apply IH.
Qed.

Lemma insert_present (r : row) (rows : list row) :
  has_id (fst r) rows = true -> insert_or_ignore r rows = rows.
Proof. unfold insert_or_ignore. now intros ->. Qed.

Lemma select_id_insert_other (iid : str) (r : row) (rows : list row) :
  has_id iid rows = true ->
  select_id iid (insert_or_ignore r rows) = select_id iid rows.
Proof.
  intro H. unfold insert_or_ignore.
  destruct (has_id (fst r) rows) eqn:E; [reflexivity|].
  unfold select_id. rewrite filter_app. simpl.
  destruct (str_eqb (fst r) iid) eqn:Q; [|apply app_nil_r].
  apply str_eqb_eq in Q. congruence.
Qed.

Section Ledger.

Variable clock : nat -> str.

Lemma mark_each_present (ids : list str) (iid : str) (w : world) :
  has_id iid (seen w) = true ->
  fst (mark_each clock ids w) = Ok tt
  /\ select_id iid (seen (snd (mark_each clock ids w))) = select_id iid (seen w).
Proof.
  revert w. induction ids as [|j ids IH]; intros w H; simpl; [now split|].
  unfold bind, mark_seen.
  destruct (IH (mkWorld (insert_or_ignore (j, clock (ticks w)) (seen w))
                        (S (ticks w)))) as [I1 I2].
  - simpl. rewrite has_id_insert, H. reflexivity.
  - split; [exact I1|]. rewrite I2. simpl. now apply select_id_insert_other.
Qed.

(** C2.  From a ledger without a record for [iid], a call of
    [mark_seen(iid)] followed by any further calls of [mark_seen], for
    [iid] again or for other ids, at later clock readings, raises
    nothing and leaves exactly one record for [iid], with the clock
    reading of the first call.  On a ledger that has a record for an id,
    [mark_seen] of that id raises nothing and changes no row. *)
Theorem mark_seen_idempotent (iid : str) (later : list str) (w : world) :
  has_id iid (seen w) = false ->
  fst (mark_each clock (iid :: later) w) = Ok tt
  /\ select_id iid (seen (snd (mark_each clock (iid :: later) w)))
     = [(iid, clock (ticks w))]
  /\ (forall (n : nat),
        select_id iid (seen (snd (mark_each clock (repeat iid (S n)) w)))
        = [(iid, clock (ticks w))])
  /\ (forall w0 : world,
        has_id iid (seen w0) = true ->
        fst (mark_seen clock iid w0) = Ok tt
        /\ seen (snd (mark_seen clock iid w0)) = seen w0).
Proof.
  intro H.
  assert (G : forall l,
             fst (mark_each clock (iid :: l) w) = Ok tt
             /\ select_id iid (seen (snd (mark_each clock (iid :: l) w)))
                = [(iid, clock (ticks w))]).
  { intro l. simpl. unfold bind, mark_seen.
    destruct (mark_each_present l iid
                (mkWorld (insert_or_ignore (iid, clock (ticks w)) (seen w))
                         (S (ticks w)))) as [I1 I2].
    - simpl. rewrite has_id_insert. simpl. rewrite str_eqb_refl.
      apply orb_true_r.
    - split; [exact I1|]. rewrite I2. simpl.
      unfold insert_or_ignore. simpl. rewrite H.
      rewrite select_id_app, (select_id_absent _ _ H).
      unfold select_id. simpl. now rewrite str_eqb_refl. }
  split; [apply G|]. split; [apply G|]. split.
  - intro n. apply (G (repeat iid n)).
  - intros w0 H0. split; [reflexivity|].
    simpl. now apply insert_present.
Qed.

End Ledger.

Lemma mark_seen_idempotent_witness :
  select_id "ab12"
    (seen (snd (mark_each ex_clock
                  ["ab12" : str; "ab12" : str; "cd34" : str; "ab12" : str]
                  ex_world)))
  = [("ab12" : str, ex_clock 0)].
Proof.
  exact (proj1 (proj2 (mark_seen_idempotent ex_clock "ab12"
                         ["ab12" : str; "cd34" : str; "ab12" : str]
                         ex_world eq_refl))).
Defined.

(** ** The pipeline *)

Lemma ledger_le_refl (w : world) : ledger_le w w.
Proof. intros i H. exact H. Qed.

Lemma ledger_le_trans (w1 w2 w3 : world) :
  ledger_le w1 w2 -> ledger_le w2 w3 -> ledger_le w1 w3.
Proof. intros H1 H2 i H. auto. Qed.

Lemma settled_mono (cfg : Config) (w w' : world) (e : Entry) :
  ledger_le w w' -> settled cfg w e -> settled cfg w' e.
Proof.
  unfold settled. intros L.
  destruct (score_item (entry_blob e) cfg) as [[keep sc]|x]; auto.
Qed.

Section PipelineFacts.

Variable clock : nat -> str.
Variable dateparse : str -> option str.
Variable feed : str -> list Entry.

(** The loop body by cases. *)
Lemma process_entry_eq (src : Source) (cfg : Config) (e : Entry) (w : world) :
  process_entry clock dateparse src cfg e w =
  match score_item (entry_blob e) cfg with
  | Raise x => (Raise x, w)
  | Ok (keep, sc) =>
      if negb keep then (Ok None, w)
      else if has_id (entry_id e) (seen w) then (Ok None, w)
      else match src_name src with
           | None => (Raise (KeyError "name"), w)
           | Some name =>
               (Ok (Some (item_of dateparse name src e sc)),
                mkWorld (insert_or_ignore (entry_id e, clock (ticks w)) (seen w))
                        (S (ticks w)))
           end
  end.
Proof.
  unfold process_entry, bind, lift, already_seen, mark_seen, ret.
  fold (entry_blob e). fold (entry_id e).
  destruct (score_item (entry_blob e) cfg) as [[keep sc]|x]; [|reflexivity].
  destruct keep; simpl; [|reflexivity].
  destruct (has_id (entry_id e) (seen w)); [reflexivity|].
  destruct (src_name src); reflexivity.
Qed.

Lemma process_entry_mono (src : Source) (cfg : Config) (e : Entry) (w : world) :
  ledger_le w (snd (process_entry clock dateparse src cfg e w)).
Proof.
  rewrite process_entry_eq.
  destruct (score_item (entry_blob e) cfg) as [[keep sc]|x];
    [|apply ledger_le_refl].
  destruct keep; simpl; [|apply ledger_le_refl].
  destruct (has_id (entry_id e) (seen w)); [apply ledger_le_refl|].
  destruct (src_name src); [|apply ledger_le_refl].
  intros i H. simpl. rewrite has_id_insert, H. reflexivity.
Qed.

Lemma process_entry_settles (src : Source) (cfg : Config) (e : Entry)
      (w w' : world) (o : option Item) :
  process_entry clock dateparse src cfg e w = (Ok o, w') ->
  settled cfg w' e.
Proof.
  rewrite process_entry_eq. unfold settled.
  destruct (score_item (entry_blob e) cfg) as [[keep sc]|x];
    [|discriminate].
  destruct keep; simpl; [|intros _; discriminate].
  destruct (has_id (entry_id e) (seen w)) eqn:S.
  - intros [= _ <-] _. exact S.
  - destruct (src_name src); [|discriminate].
    intros [= _ <-] _. simpl. rewrite has_id_insert. simpl.
    rewrite str_eqb_refl. apply orb_true_r.
Qed.

(** A settled entry is skipped: no item, no ledger write, no clock
    reading. *)
Lemma process_entry_settled (src : Source) (cfg : Config) (e : Entry) (w : world) :
  settled cfg w e ->
  process_entry clock dateparse src cfg e w = (Ok None, w).
Proof.
  rewrite process_entry_eq. unfold settled.
  destruct (score_item (entry_blob e) cfg) as [[keep sc]|x]; [|tauto].
  destruct keep; simpl; [|reflexivity].
  intro H. now rewrite H.
Qed.

Lemma fetch_loop_mono (src : Source) (cfg : Config) (es : list Entry)
      (items : list Item) (w : world) :
  ledger_le w (snd (fetch_loop clock dateparse src cfg es items w)).
Proof.
  revert items w. induction es as [|e es IH]; intros items w; simpl.
  - apply ledger_le_refl.
  - unfold bind.
    pose proof (process_entry_mono src cfg e w) as P.
    destruct (process_entry clock dateparse src cfg e w) as [[o|x] w1];
      simpl in P; [|exact P].
    eapply ledger_le_trans; [exact P|apply IH].
Qed.

Lemma fetch_loop_settles (src : Source) (cfg : Config) (es : list Entry)
      (items items' : list Item) (w w' : world) :
  fetch_loop clock dateparse src cfg es items w = (Ok items', w') ->
  Forall (settled cfg w') es.
Proof.
  revert items w. induction es as [|e es IH]; intros items w; simpl.
  - intros _. constructor.
  - unfold bind.
    destruct (process_entry clock dateparse src cfg e w) as [[o|x] w1] eqn:P;
      [|discriminate].
    intro F. constructor; [|eapply IH; exact F].
    apply settled_mono with (w := w1).
    + pose proof (fetch_loop_mono src cfg es (append_opt items o) w1) as L.
      now rewrite F in L.
    + eapply process_entry_settles; exact P.
Qed.

Lemma fetch_loop_settled (src : Source) (cfg : Config) (es : list Entry)
      (items : list Item) (w : world) :
  Forall (settled cfg w) es ->
  fetch_loop clock dateparse src cfg es items w = (Ok items, w).
Proof.
  induction 1 as [|e es S _ IH]; simpl; [reflexivity|].
  unfold bind. rewrite (process_entry_settled src cfg e w S). exact IH.
Qed.

Lemma fetch_rss_source_eq (src : Source) (cfg : Config) (url : str) (w : world) :
  src_url src = Some url ->
  fetch_rss_source clock dateparse feed src cfg w
  = fetch_loop clock dateparse src cfg (firstn 200 (feed url)) [] w.
Proof. intro U. unfold fetch_rss_source, bind, lift. now rewrite U. Qed.

Lemma fetch_rss_source_mono (src : Source) (cfg : Config) (w : world) :
  ledger_le w (snd (fetch_rss_source clock dateparse feed src cfg w)).
Proof.
  unfold fetch_rss_source, bind, lift.
  destruct (src_url src) as [url|]; simpl; [|apply ledger_le_refl].
  apply fetch_loop_mono.
Qed.

Lemma source_settled_mono (cfg : Config) (w w' : world) (src : Source) :
  ledger_le w w' -> source_settled feed cfg w src -> source_settled feed cfg w' src.
Proof.
  intros L S R. destruct (S R) as (url & U & F). exists url. split; [exact U|].
  eapply Forall_impl; [|exact F]. intros e. now apply settled_mono.
Qed.

Lemma main_loop_mono (cfg : Config) (srcs : list Source)
      (all_items : list Item) (w : world) :
  ledger_le w (snd (main_loop clock dateparse feed cfg srcs all_items w)).
Proof.
  revert all_items w. induction srcs as [|src srcs IH]; intros acc w; simpl.
  - apply ledger_le_refl.
  - destruct (is_rss src); [|apply IH].
    unfold bind.
    pose proof (fetch_rss_source_mono src cfg w) as P.
    destruct (fetch_rss_source clock dateparse feed src cfg w) as [[its|x] w1];
      simpl in P; [|exact P].
    eapply ledger_le_trans; [exact P|apply IH].
Qed.

Lemma main_loop_settles (cfg : Config) (srcs : list Source)
      (all_items items' : list Item) (w w' : world) :
  main_loop clock dateparse feed cfg srcs all_items w = (Ok items', w') ->
  Forall (source_settled feed cfg w') srcs.
Proof.
  revert all_items w. induction srcs as [|src srcs IH]; intros acc w; simpl.
  - intros _. constructor.
  - destruct (is_rss src) eqn:R.
    + unfold bind.
      destruct (fetch_rss_source clock dateparse feed src cfg w)
        as [[its|x] w1] eqn:P; [|discriminate].
      intro F. constructor; [|eapply IH; exact F].
      apply source_settled_mono with (w := w1).
      * pose proof (main_loop_mono cfg srcs (acc ++ its) w1) as L.
        now rewrite F in L.
      * intros _. unfold fetch_rss_source, bind, lift in P.
        destruct (src_url src) as [url|]; simpl in P; [|discriminate].
        exists url. split; [reflexivity|].
        eapply fetch_loop_settles; exact P.
    + intro F. constructor; [|eapply IH; exact F].
      intro Q. congruence.
Qed.

Lemma main_loop_settled (cfg : Config) (srcs : list Source)
      (all_items : list Item) (w : world) :
  Forall (source_settled feed cfg w) srcs ->
  main_loop clock dateparse feed cfg srcs all_items w = (Ok all_items, w).
Proof.
  induction 1 as [|src srcs S _ IH]; simpl; [reflexivity|].
  destruct (is_rss src) eqn:R; [|exact IH].
  destruct (S R) as (url & U & F).
  unfold bind. rewrite (fetch_rss_source_eq src cfg url w U).
  rewrite (fetch_loop_settled src cfg _ [] w F).
  rewrite app_nil_r. exact IH.
Qed.

(** [main] is its loop followed by the ranking, which reads the
    configuration only. *)
Lemma main_eq (cfg : Config) (w : world) :
  main clock dateparse feed cfg w =
  match main_loop clock dateparse feed cfg (get (sources cfg) []) [] w with
  | (Ok all_items, w') => (items_sorted all_items cfg, w')
  | (Raise x, w') => (Raise x, w')
  end.
Proof. reflexivity. Qed.

Lemma main_mono (cfg : Config) (w : world) :
  ledger_le w (snd (main clock dateparse feed cfg w)).
Proof.
  rewrite main_eq.
  pose proof (main_loop_mono cfg (get (sources cfg) []) [] w) as L.
  destruct (main_loop clock dateparse feed cfg (get (sources cfg) []) [] w)
    as [[its|x] w1]; exact L.
Qed.

End PipelineFacts.

Lemma runs_to_ledger_le (clock : nat -> str) (w w' : world) :
  runs_to clock w w' -> ledger_le w w'.
Proof.
  induction 1 as [w|dp fd cfg w w1 w2 r E _ IH]; [apply ledger_le_refl|].
  eapply ledger_le_trans; [|exact IH].
  pose proof (main_mono clock dp fd cfg w) as L. now rewrite E in L.
Qed.

Lemma score_item_ok (text : str) (cfg : Config) (kw : Keywords) :
  keywords cfg = Some kw ->
  exists keep sc, score_item text cfg = Ok (keep, sc).
Proof.
  intro K. rewrite (score_item_eq text cfg kw K).
  destruct (existsb _ (get (exclude_any kw) [])); [now eauto|].
  destruct (truthy _ && negb _); eauto.
Qed.

Section Runs.

Variable clock : nat -> str.
Variable dateparse : str -> option str.
Variable feed : str -> list Entry.

(** An entry whose fingerprint is in the ledger yields no item and
    leaves the world as it is. *)
Lemma process_entry_seen (src : Source) (cfg : Config) (e : Entry) (w : world) :
  has_id (entry_id e) (seen w) = true ->
  exists r, process_entry clock dateparse src cfg e w = (r, w)
            /\ forall it, r <> Ok (Some it).
Proof.
  intro H. rewrite process_entry_eq.
  destruct (score_item (entry_blob e) cfg) as [[keep sc]|x].
  - exists (Ok None). rewrite H. split; [now destruct keep|discriminate].
  - exists (Raise x). split; [reflexivity|discriminate].
Qed.

Lemma fetch_loop_skip (src : Source) (cfg : Config) (kw : Keywords)
      (e : Entry) (es1 es2 : list Entry) (items : list Item) (w : world) :
  keywords cfg = Some kw ->
  has_id (entry_id e) (seen w) = true ->
  fetch_loop clock dateparse src cfg (es1 ++ e :: es2) items w
  = fetch_loop clock dateparse src cfg (es1 ++ es2) items w.
Proof.
  intros K. revert items w.
  induction es1 as [|x es1 IH]; intros items w H; simpl; unfold bind.
  - rewrite process_entry_settled; [reflexivity|].
    unfold settled.
    destruct (score_item_ok (entry_blob e) cfg kw K) as (keep & sc & ->).
    now intros _.
  - pose proof (process_entry_mono clock dateparse src cfg x w) as L.
    destruct (process_entry clock dateparse src cfg x w) as [[o|y] w1];
      [|reflexivity].
    apply IH. apply L. exact H.
Qed.

(** C1.  When a run of [main] over a configuration and its feeds
    completes, a second run over the same configuration and feeds, from
    the world the first run left, returns the empty list and leaves that
    world as it is: no ledger row is written and the clock is not read.
    In any world, an entry whose fingerprint the ledger holds yields no
    item and changes nothing. *)
Theorem second_run_emits_nothing (cfg : Config) (w w1 : world) (items : list Item) :
  main clock dateparse feed cfg w = (Ok items, w1) ->
  main clock dateparse feed cfg w1 = (Ok [], w1)
  /\ (forall (src : Source) (e : Entry) (w0 : world),
        has_id (entry_id e) (seen w0) = true ->
        exists r, process_entry clock dateparse src cfg e w0 = (r, w0)
                  /\ forall it, r <> Ok (Some it)).
Proof.
  intro H. split; [|intros src e w0; apply process_entry_seen].
  rewrite main_eq in H.
  destruct (main_loop clock dateparse feed cfg (get (sources cfg) []) [] w)
    as [[all|x] w'] eqn:L; [|discriminate H].
  injection H as H <-.
  rewrite main_eq, (main_loop_settled clock dateparse feed cfg _ [] w').
  - unfold items_sorted in *.
    destruct (getitem "email" (email cfg)) as [em|x]; [|discriminate H].
    destruct (getitem "max_items" (max_items em)) as [n|x]; [|discriminate H].
    unfold slice_to. simpl. now rewrite !firstn_nil, Tauto.if_same.
  - eapply main_loop_settles; exact L.
Qed.

(** C3.  When the loop of [main] over the sources completes, the ledger
    it leaves holds the fingerprint of every relevant entry among the
    first 200 of every rss source, whether the entry was new or not; the
    ranking and the cut to [max_items] come after and leave the ledger as
    it is.  Each relevant entry is in the ledger as soon as the loop body
    has processed it.  In the example, with [max_items = 1] and an empty
    ledger, the two entries are relevant, the digest has one item and the
    ledger holds both fingerprints. *)
Theorem truncated_items_marked (cfg : Config) (w w1 : world) (all_items : list Item) :
  main_loop clock dateparse feed cfg (get (sources cfg) []) [] w
  = (Ok all_items, w1) ->
  (forall (src : Source) (url : str) (e : Entry) (sc : Z),
      In src (get (sources cfg) []) ->
      is_rss src = true ->
      src_url src = Some url ->
      In e (firstn 200 (feed url)) ->
      score_item (entry_blob e) cfg = Ok (true, sc) ->
      has_id (entry_id e) (seen w1) = true)
  /\ snd (main clock dateparse feed cfg w) = w1
  /\ (forall (src : Source) (e : Entry) (sc : Z) (o : option Item) (w0 w0' : world),
        process_entry clock dateparse src cfg e w0 = (Ok o, w0') ->
        score_item (entry_blob e) cfg = Ok (true, sc) ->
        has_id (entry_id e) (seen w0') = true)
  /\ (max_items (mkEmail (Some ("Digest" : str)) (Some 1%Z)) = Some 1%Z
      /\ (exists s1 s2,
             score_item (entry_blob ex_entry1) ex_cfg = Ok (true, s1)
             /\ score_item (entry_blob ex_entry2) ex_cfg = Ok (true, s2))
      /\ entry_id ex_entry1 <> entry_id ex_entry2
      /\ fst ex_run1 = Ok [item_of ex_dateparse "feed" ex_source ex_entry2 75]
      /\ has_id (entry_id ex_entry1) (seen (snd ex_run1)) = true
      /\ has_id (entry_id ex_entry2) (seen (snd ex_run1)) = true).
Proof.
  intro L. split; [|split; [|split]].
  - intros src url e sc Hs R U He Sc.
    pose proof (main_loop_settles clock dateparse feed cfg _ _ _ _ _ L) as F.
    rewrite Forall_forall in F. destruct (F src Hs R) as (url' & U' & G).
    assert (url' = url) by congruence. subst url'.
    rewrite Forall_forall in G. specialize (G e He).
    unfold settled in G. rewrite Sc in G. now apply G.
  - rewrite main_eq, L. reflexivity.
  - intros src e sc o w0 w0' P Sc.
    pose proof (process_entry_settles clock dateparse src cfg e w0 w0' o P) as G.
    unfold settled in G. rewrite Sc in G. now apply G.
  - split; [reflexivity|]. split.
    { exists 70%Z, 75%Z. split; vm_compute; reflexivity. }
    split; [intro E; vm_compute in E; discriminate E|].
    repeat split; vm_compute; reflexivity.
Qed.

End Runs.

(** C10.  Two entries with the same title and the same link have the same
    fingerprint, whatever their summaries, descriptions and dates.  Once
    the ledger holds it, in the world after any number of further runs,
    processing either entry yields no item and changes nothing, and, with
    a keyword policy in the configuration, a feed that carries such an
    entry is processed as the feed without it. *)
Theorem same_title_link_never_emitted (e e' : Entry) :
  e_title e = e_title e' ->
  e_link e = e_link e' ->
  entry_id e = entry_id e'
  /\ (forall (clock : nat -> str) (dateparse : str -> option str)
             (src : Source) (cfg : Config) (w0 w : world),
        has_id (entry_id e) (seen w0) = true ->
        runs_to clock w0 w ->
        (exists r, process_entry clock dateparse src cfg e' w = (r, w)
                   /\ forall it, r <> Ok (Some it))
        /\ (forall (kw : Keywords) (es1 es2 : list Entry) (items : list Item),
              keywords cfg = Some kw ->
              fetch_loop clock dateparse src cfg (es1 ++ e' :: es2) items w
              = fetch_loop clock dateparse src cfg (es1 ++ es2) items w)).
Proof.
  intros T L.
  assert (E : entry_id e = entry_id e').
  { unfold entry_id, entry_title, entry_link. now rewrite T, L. }
  split; [exact E|].
  intros clock dateparse src cfg w0 w H R.
  assert (H' : has_id (entry_id e') (seen w) = true).
  { rewrite <- E. exact (runs_to_ledger_le clock w0 w R _ H). }
  split.
  - now apply process_entry_seen.
  - intros kw es1 es2 items K. now apply fetch_loop_skip with (kw := kw).
Qed.

Lemma second_run_emits_nothing_witness :
  main ex_clock ex_dateparse ex_feed ex_cfg ex_world
  = (Ok [item_of ex_dateparse "feed" ex_source ex_entry2 75], snd ex_run1)
  /\ main ex_clock ex_dateparse ex_feed ex_cfg (snd ex_run1)
     = (Ok [], snd ex_run1).
Proof.
  assert (E : main ex_clock ex_dateparse ex_feed ex_cfg ex_world
              = (Ok [item_of ex_dateparse "feed" ex_source ex_entry2 75],
                 snd ex_run1))
    by (vm_compute; reflexivity).
  split; [exact E|].
  exact (proj1 (second_run_emits_nothing ex_clock ex_dateparse ex_feed ex_cfg
                  ex_world (snd ex_run1) _ E)).
Defined.

Lemma truncated_items_marked_witness :
  main_loop ex_clock ex_dateparse ex_feed ex_cfg (get (sources ex_cfg) []) [] ex_world
  = (Ok [item_of ex_dateparse "feed" ex_source ex_entry1 70;
         item_of ex_dateparse "feed" ex_source ex_entry2 75],
     snd ex_run1)
  /\ has_id (entry_id ex_entry1) (seen (snd ex_run1)) = true
  /\ snd (main ex_clock ex_dateparse ex_feed ex_cfg ex_world) = snd ex_run1.
Proof.
  assert (E : main_loop ex_clock ex_dateparse ex_feed ex_cfg
                        (get (sources ex_cfg) []) [] ex_world
              = (Ok [item_of ex_dateparse "feed" ex_source ex_entry1 70;
                     item_of ex_dateparse "feed" ex_source ex_entry2 75],
                 snd ex_run1))
    by (vm_compute; reflexivity).
  assert (S : score_item (entry_blob ex_entry1) ex_cfg = Ok (true, 70%Z))
    by (vm_compute; reflexivity).
  split; [exact E|]. split.
  - exact (proj1 (truncated_items_marked ex_clock ex_dateparse ex_feed ex_cfg
                    ex_world (snd ex_run1) _ E)
                 ex_source ("http://x/rss" : str) ex_entry1 70%Z
                 (or_introl eq_refl) eq_refl eq_refl (or_introl eq_refl) S).
  - exact (proj1 (proj2 (truncated_items_marked ex_clock ex_dateparse ex_feed
                           ex_cfg ex_world (snd ex_run1) _ E))).
Defined.

Lemma same_title_link_never_emitted_witness :
  entry_id ex_entry1 = entry_id ex_entry1_edited
  /\ has_id (entry_id ex_entry1) (seen (snd ex_run1)) = true
  /\ fetch_loop ex_clock ex_dateparse ex_source ex_cfg
                [ex_entry2; ex_entry1_edited] [] (snd ex_run1)
     = fetch_loop ex_clock ex_dateparse ex_source ex_cfg
                  [ex_entry2] [] (snd ex_run1).
Proof.
  assert (H : has_id (entry_id ex_entry1) (seen (snd ex_run1)) = true)
    by (vm_compute; reflexivity).
  pose proof (same_title_link_never_emitted ex_entry1 ex_entry1_edited
                eq_refl eq_refl) as [E F].
  split; [exact E|]. split; [exact H|].
  exact (proj2 (F ex_clock ex_dateparse ex_source ex_cfg
                  (snd ex_run1) (snd ex_run1) H
                  (runs_refl ex_clock (snd ex_run1)))
               ex_keywords [ex_entry2] [] [] eq_refl).
Defined.

(** * Further properties of the code *)

(** ** Normal forms of [normalize_text] *)

Lemma resub_ws_length (f : bool) (s : str) :
  (List.length (resub_ws f s) <= List.length s)%nat.
Proof.
  revert f. induction s as [|c r IH]; intro f; simpl; [lia|].
  destruct (is_space c); [destruct f|]; simpl.
  - specialize (IH true). lia.
  - specialize (IH true). lia.
  - specialize (IH false). lia.
Qed.

Lemma lstrip_length (s : str) : (List.length (lstrip s) <= List.length s)%nat.
Proof.
  induction s as [|c r IH]; simpl; [lia|].
  destruct (is_space c); simpl; lia.
Qed.

Lemma rstrip_length (s : str) : (List.length (rstrip s) <= List.length s)%nat.
Proof.
  induction s as [|c r IH]; simpl; [lia|].
  destruct (rstrip r); [destruct (is_space c)|]; simpl in *; lia.
Qed.

Lemma resub_ws_true_space (c : ascii) (r : str) :
  is_space c = true -> resub_ws true (c :: r) <> c :: r.
Proof.
  intros H E. simpl in E. rewrite H in E.
  pose proof (resub_ws_length true r) as L. rewrite E in L. simpl in L. lia.
Qed.

Lemma resub_ws_idem (f : bool) (s : str) :
  resub_ws f (resub_ws f s) = resub_ws f s.
Proof.
  revert f. induction s as [|c r IH]; intro f; simpl; [reflexivity|].
  destruct (is_space c) eqn:C; [destruct f|]; simpl.
  - apply IH.
  - now rewrite IH.
  - now rewrite C, IH.
Qed.

Lemma resub_ws_fix_flag (f : bool) (s : str) :
  resub_ws f s = s -> resub_ws false s = s.
Proof.
  destruct s as [|c r]; [reflexivity|].
  destruct (is_space c) eqn:C.
  - destruct f; [|tauto]. intro E. now apply resub_ws_true_space in E.
  - simpl. now rewrite C.
Qed.

Lemma resub_ws_fix_rstrip (f : bool) (s : str) :
  resub_ws f s = s -> resub_ws f (rstrip s) = rstrip s.
Proof.
  revert f. induction s as [|c r IH]; intros f E; [reflexivity|].
  destruct (is_space c) eqn:C.
  - destruct f; [now apply resub_ws_true_space in E|].
    simpl in E. rewrite C in E. injection E as E1 E2.
    specialize (IH true E2). simpl.
    destruct (rstrip r) as [|x y] eqn:R; [now rewrite C|].
    change (resub_ws false (c :: x :: y)) with
      (if is_space c then SP :: resub_ws true (x :: y)
       else c :: resub_ws false (x :: y)).
    now rewrite C, IH, <- E1.
  - simpl in E. rewrite C in E. injection E as E.
    specialize (IH false E). simpl.
    destruct (rstrip r) as [|x y] eqn:R.
    + rewrite C. simpl. now rewrite C.
    + change (resub_ws f (c :: x :: y)) with
        (if is_space c
         then if f then resub_ws true (x :: y) else SP :: resub_ws true (x :: y)
         else c :: resub_ws false (x :: y)).
      now rewrite C, IH.
Qed.

Lemma resub_ws_fix_lstrip (f : bool) (s : str) :
  resub_ws f s = s -> resub_ws false (lstrip s) = lstrip s.
Proof.
  revert f. induction s as [|c r IH]; intros f E; [reflexivity|].
  simpl. destruct (is_space c) eqn:C.
  - destruct f; [now apply resub_ws_true_space in E|].
    simpl in E. rewrite C in E. injection E as _ E2. now apply (IH true).
  - now apply resub_ws_fix_flag with (f := f).
Qed.

Lemma lstrip_idem (s : str) : lstrip (lstrip s) = lstrip s.
Proof.
  induction s as [|c r IH]; simpl; [reflexivity|].
  destruct (is_space c) eqn:C; [exact IH|]. simpl. now rewrite C.
Qed.

Lemma rstrip_idem (s : str) : rstrip (rstrip s) = rstrip s.
Proof.
  induction s as [|c r IH]; simpl; [reflexivity|].
  destruct (rstrip r) as [|x y] eqn:R.
  - destruct (is_space c) eqn:C; simpl; [reflexivity|now rewrite C].
  - change (rstrip (c :: x :: y)) with
      (match rstrip (x :: y) with
       | [] => if is_space c then [] else [c]
       | r' => c :: r'
       end).
    now rewrite IH.
Qed.

Lemma rstrip_fix_lstrip (s : str) :
  rstrip s = s -> rstrip (lstrip s) = lstrip s.
Proof.
  induction s as [|c r IH]; intro E; [reflexivity|].
  simpl. destruct (is_space c) eqn:C; [|exact E].
  apply IH. simpl in E. rewrite C in E.
  destruct (rstrip r); [discriminate E|]. now injection E.
Qed.

Lemma strip_lstrip_fix (s : str) : lstrip (strip s) = strip s.
Proof. apply lstrip_idem. Qed.

Lemma strip_rstrip_fix (s : str) : rstrip (strip s) = strip s.
Proof. unfold strip. apply rstrip_fix_lstrip, rstrip_idem. Qed.

Lemma strip_idem (s : str) : strip (strip s) = strip s.
Proof.
  unfold strip at 1. now rewrite strip_rstrip_fix, strip_lstrip_fix.
Qed.

Lemma lower_idem (s : str) : lower (lower s) = lower s.
Proof.
  unfold lower. rewrite map_map. apply map_ext. apply to_lower_idem.
Qed.

(** The three passes of [normalize_text] leave its result as it is. *)
Lemma normalize_text_fix (s : str) :
  resub_ws false (normalize_text s) = normalize_text s
  /\ lstrip (normalize_text s) = normalize_text s
  /\ rstrip (normalize_text s) = normalize_text s
  /\ lower (normalize_text s) = normalize_text s.
Proof.
  unfold normalize_text. repeat split.
  - rewrite resub_ws_lower. f_equal. unfold strip.
    eapply resub_ws_fix_lstrip, resub_ws_fix_rstrip, resub_ws_idem.
  - now rewrite lstrip_lower, strip_lstrip_fix.
  - now rewrite rstrip_lower, strip_rstrip_fix.
  - apply lower_idem.
Qed.

Lemma in_resub_ws_space (c : ascii) (f : bool) (s : str) :
  In c (resub_ws f s) -> is_space c = true -> c = SP.
Proof.
  revert f. induction s as [|d r IH]; intro f; simpl; [tauto|].
  destruct (is_space d) eqn:D; [destruct f|]; simpl; intros H C.
  - eauto.
  - destruct H as [H|H]; [now symmetry|eauto].
  - destruct H as [H|H]; [congruence|eauto].
Qed.

(** X1.  [normalize_text] is idempotent, so normalizing the title and the
    link beforehand changes no fingerprint. *)
Theorem normalize_text_idempotent (s t l : str) :
  normalize_text (normalize_text s) = normalize_text s
  /\ item_id (normalize_text t) (normalize_text l) = item_id t l.
Proof.
  assert (I : forall x, normalize_text (normalize_text x) = normalize_text x).
  { intro x. destruct (normalize_text_fix x) as (F1 & F2 & F3 & F4).
    unfold normalize_text at 1. unfold strip. now rewrite F1, F3, F2. }
  split; [apply I|]. unfold item_id, item_base. now rewrite !I.
Qed.

(** X2.  The shape of a normalized string: its only whitespace character
    is the space, no two whitespace characters are adjacent, it neither
    starts nor ends with whitespace, and lowercasing leaves it as it is. *)
Theorem normalize_text_shape (s : str) :
  (forall c, In c (normalize_text s) -> is_space c = true -> c = SP)
  /\ (forall a b c d, normalize_text s = a ++ c :: d :: b ->
                      is_space c = true -> is_space d = false)
  /\ (forall c r, normalize_text s = c :: r -> is_space c = false)
  /\ (forall a c, normalize_text s = a ++ [c] -> is_space c = false)
  /\ lower (normalize_text s) = normalize_text s.
Proof.
  destruct (normalize_text_fix s) as (F1 & F2 & F3 & F4).
  split; [|split; [|split; [|split]]].
  - intros c H. rewrite <- F1 in H. exact (in_resub_ws_space c false _ H).
  - intros a b c d E C. apply not_true_is_false. intro D.
    rewrite E in F1. rewrite resub_ws_app in F1.
    apply (f_equal (@List.length ascii)) in F1.
    rewrite !length_app in F1. simpl in F1. rewrite C, D in F1.
    pose proof (resub_ws_length false a) as L1.
    pose proof (resub_ws_length true b) as L2.
    destruct (run_after false a); simpl in F1; lia.
  - intros c r E. apply not_true_is_false. intro C.
    rewrite E in F2. simpl in F2. rewrite C in F2.
    pose proof (lstrip_length r) as L. rewrite F2 in L. simpl in L. lia.
  - intros a c E. apply not_true_is_false. intro C.
    rewrite E in F3. rewrite (rstrip_space_snoc c a C) in F3.
    pose proof (rstrip_length a) as L. rewrite F3 in L.
    rewrite length_app in L. simpl in L. lia.
  - exact F4.
Qed.

(** ** The digest and the encoding *)

Lemma flat_map_length_const {A B : Type} (f : A -> list B) (k : nat) (l : list A) :
  (forall x, List.length (f x) = k) ->
  List.length (flat_map f l) = (k * List.length l)%nat.
Proof.
  intro H. induction l as [|x l IH]; simpl; [lia|].
  rewrite length_app, H, IH. lia.
Qed.

Lemma Forall_flat_map {A B : Type} (P : B -> Prop) (f : A -> list B) (l : list A) :
  (forall x, Forall P (f x)) -> Forall P (flat_map f l).
Proof.
  intro H. induction l as [|x l IH]; simpl; [constructor|].
  apply Forall_app. split; [apply H|exact IH].
Qed.

Lemma compress_length (h block : list Z) :
  List.length h = 8%nat -> List.length (Sha256.compress h block) = 8%nat.
Proof.
  intro H. unfold Sha256.compress. rewrite length_map, length_combine, H.
  reflexivity.
Qed.

Lemma blocks_length (fuel : nat) (h bs : list Z) :
  List.length h = 8%nat -> List.length (Sha256.blocks fuel h bs) = 8%nat.
Proof.
  revert h bs. induction fuel as [|n IH]; intros h bs H; simpl; [exact H|].
  destruct bs; [exact H|]. apply IH. now apply compress_length.
Qed.

Lemma be_bytes_length (n : nat) (x : Z) : List.length (Sha256.be_bytes n x) = n.
Proof. unfold Sha256.be_bytes. now rewrite length_map, length_rev, length_seq. Qed.

Lemma be_bytes_range (n : nat) (x : Z) :
  Forall (fun b => 0 <= b < 256)%Z (Sha256.be_bytes n x).
Proof.
  unfold Sha256.be_bytes. apply Forall_map, Forall_forall. intros i _.
  apply Z.mod_pos_bound. lia.
Qed.

Lemma hex_digit_in (d : Z) : (0 <= d < 16)%Z -> In (Sha256.hex_digit d) hex_digits.
Proof.
  intro H.
  assert (E : (d = 0 \/ d = 1 \/ d = 2 \/ d = 3 \/ d = 4 \/ d = 5 \/ d = 6
               \/ d = 7 \/ d = 8 \/ d = 9 \/ d = 10 \/ d = 11 \/ d = 12
               \/ d = 13 \/ d = 14 \/ d = 15)%Z) by lia.
  repeat (destruct E as [->|E]; [vm_compute; tauto|]).
  subst d. vm_compute. tauto.
Qed.

(** X3.  A fingerprint is 64 characters long, each a lowercase hexadecimal
    digit. *)
Theorem item_id_hex64 (t l : str) :
  List.length (item_id t l) = 64%nat
  /\ Forall (fun c => In c hex_digits) (item_id t l).
Proof.
  unfold item_id, sha256_hexdigest, Sha256.hex, Sha256.digest. split.
  - rewrite (flat_map_length_const _ 2) by reflexivity.
    rewrite (flat_map_length_const _ 4) by (intro; apply be_bytes_length).
    rewrite blocks_length by reflexivity. reflexivity.
  - apply Forall_forall. intros c H. apply in_flat_map in H.
    destruct H as (b & Hb & Hc).
    assert (R : (0 <= b < 256)%Z).
    { clear Hc. revert b Hb. apply Forall_forall, Forall_flat_map. intro x.
      apply be_bytes_range. }
    destruct Hc as [<-|[<-|[]]]; apply hex_digit_in.
    + split; [apply Z.div_pos; lia|apply Z.div_lt_upper_bound; lia].
    + apply Z.mod_pos_bound. lia.
Qed.

Lemma utf8_cons (c : ascii) (s : str) : utf8 (c :: s) = utf8 [c] ++ utf8 s.
Proof. unfold utf8. simpl. now rewrite app_nil_r. Qed.

Lemma utf8_decode_char (c : ascii) (r : list Z) :
  utf8_decode (utf8 [c] ++ r) = c :: utf8_decode r.
Proof. each_char c; reflexivity. Qed.

(** X4.  The UTF-8 bytes of a string give the string back, so two
    different pre-hash strings are hashed as two different byte strings:
    entries with different normalized title or link share a fingerprint
    only through a collision of SHA-256. *)
Theorem utf8_round_trip (s : str) :
  utf8_decode (utf8 s) = s
  /\ (forall a b : str, utf8 a = utf8 b -> a = b)
  /\ (forall t1 l1 t2 l2 : str,
        item_base t1 l1 <> item_base t2 l2 ->
        item_id t1 l1 = item_id t2 l2 ->
        exists b1 b2 : list Z,
          b1 <> b2 /\ sha256_hexdigest b1 = sha256_hexdigest b2).
Proof.
  assert (R : forall x, utf8_decode (utf8 x) = x).
  { induction x as [|c x IH]; [reflexivity|].
    now rewrite utf8_cons, utf8_decode_char, IH. }
  assert (I : forall a b : str, utf8 a = utf8 b -> a = b).
  { intros a b E. rewrite <- (R a), <- (R b). now rewrite E. }
  split; [apply R|]. split; [exact I|].
  intros t1 l1 t2 l2 N E.
  exists (utf8 (item_base t1 l1)), (utf8 (item_base t2 l2)).
  split; [|exact E]. intro Q. apply N. now apply I.
Qed.

(** ** More on the scorer *)







Lemma contains_nil (t : str) : contains t [] = true.
Proof. destruct t; reflexivity. Qed.

(** X6.  A phrase of [exclude_any] that is empty, or made of whitespace
    only, excludes every text: the empty string is a substring of any
    text. *)
Theorem blank_exclude_phrase_excludes_all (cfg : Config) (kw : Keywords) (x : str) :
  keywords cfg = Some kw ->
  In x (get (exclude_any kw) []) ->
  normalize_text x = [] ->
  forall text : str, score_item text cfg = Ok (false, 0%Z).
Proof.
  intros K H B text. rewrite (score_item_eq text cfg kw K).
  assert (E : existsb (fun y => contains (normalize_text text) (normalize_text y))
                      (get (exclude_any kw) []) = true).
  { apply existsb_exists. exists x. split; [exact H|].
    rewrite B. apply contains_nil. }
  now rewrite E.
Qed.

Lemma blank_exclude_phrase_excludes_all_witness :
  score_item "Open tender for cloud hosting"
    (mkConfig None
       (Some (mkKeywords (Some ["cancelled" : str; "  " : str])
                         (Some ["tender" : str]) None))
       None)
  = Ok (false, 0%Z).
Proof.
  apply (blank_exclude_phrase_excludes_all
           (mkConfig None
              (Some (mkKeywords (Some ["cancelled" : str; "  " : str])
                                (Some ["tender" : str]) None))
              None)
           (mkKeywords (Some ["cancelled" : str; "  " : str])
                       (Some ["tender" : str]) None)
           ("  " : str) eq_refl).
  - right. left. reflexivity.
  - reflexivity.
Defined.

(** ** Dates, tags and escaping *)

(** X7.  [parse_date] reads published, updated, created in that order: a
    published value that parses wins whatever the other fields hold; a
    field that is missing, empty or unparsable hides no later field; when
    no field gives a date the result is empty, and a result that is not
    empty is the parsed value of one of the three fields. *)
Theorem parse_date_priority (dateparse : str -> option str) (e : Entry) :
  (forall p d, e_published e = Some p -> p <> [] -> dateparse p = Some d ->
               parse_date dateparse e = d)
  /\ (forall u d,
        (forall p, e_published e = Some p -> p = [] \/ dateparse p = None) ->
        e_updated e = Some u -> u <> [] -> dateparse u = Some d ->
        parse_date dateparse e = d)
  /\ (forall c d,
        (forall p, e_published e = Some p -> p = [] \/ dateparse p = None) ->
        (forall u, e_updated e = Some u -> u = [] \/ dateparse u = None) ->
        e_created e = Some c -> c <> [] -> dateparse c = Some d ->
        parse_date dateparse e = d)
  /\ ((forall v, In (Some v) [e_published e; e_updated e; e_created e] ->
                 v = [] \/ dateparse v = None) ->
      parse_date dateparse e = [])
  /\ (parse_date dateparse e <> [] ->
      exists v, In (Some v) [e_published e; e_updated e; e_created e]
                /\ v <> [] /\ dateparse v = Some (parse_date dateparse e)).
Proof.
  unfold parse_date.
  assert (S : forall (v : option str) (r : list (option str)),
             (forall p, v = Some p -> p = [] \/ dateparse p = None) ->
             parse_date_keys dateparse (v :: r) = parse_date_keys dateparse r).
  { intros [[|c s]|] r H; simpl; try reflexivity.
    destruct (H (c :: s) eq_refl) as [Q|Q]; [discriminate Q|now rewrite Q]. }
  assert (T : forall (v : str) (d : str) (r : list (option str)),
             v <> [] -> dateparse v = Some d ->
             parse_date_keys dateparse (Some v :: r) = d).
  { intros [|c s] d r N D; [congruence|]. simpl. now rewrite D. }
  split; [|split; [|split; [|split]]].
  - intros p d -> N D. now apply T.
  - intros u d P -> N D. rewrite S by exact P. now apply T.
  - intros c d P U -> N D. rewrite S by exact P. rewrite S by exact U.
    now apply T.
  - intro H. rewrite !S; [reflexivity| | |];
      intros p Q; apply H; rewrite <- Q; simpl; auto.
  - generalize [e_published e; e_updated e; e_created e].
    induction l as [|v r IH]; simpl; [congruence|].
    destruct v as [[|c s]|].
    + intro N. destruct (IH N) as (v & I & Q). exists v. auto.
    + destruct (dateparse (c :: s)) as [d|] eqn:D.
      * intros _. exists (c :: s). repeat split; [now left|discriminate|exact D].
      * intro N. destruct (IH N) as (v & I & Q). exists v. auto.
    + intro N. destruct (IH N) as (v & I & Q). exists v. auto.
Qed.

Lemma close_at_no_gt (r : str) : ~ In GT r -> close_at r = None.
Proof.
  induction r as [|c r IH]; intro H; simpl; [reflexivity|].
  destruct (ascii_dec c GT) as [E|_]; [exfalso; apply H; now left|].
  destruct (ascii_dec c LT); [reflexivity|].
  rewrite IH; [reflexivity|]. intro Q. apply H. now right.
Qed.

Lemma sub_tags_length (k : nat) (s : str) :
  (List.length (sub_tags k s) <= List.length s)%nat.
Proof.
  revert k. induction s as [|c r IH]; intro k; simpl; [lia|].
  destruct k as [|k]; [|specialize (IH k); lia].
  destruct (ascii_dec c LT); [destruct (tag_len r) as [n|]|]; simpl.
  - specialize (IH n). lia.
  - specialize (IH 0%nat). lia.
  - specialize (IH 0%nat). lia.
Qed.

Lemma sub_tags_in (x : ascii) (k : nat) (s : str) :
  In x (sub_tags k s) -> x = SP \/ In x s.
Proof.
  revert k. induction s as [|c r IH]; intro k; simpl; [tauto|].
  destruct k as [|k]; [|intro H; destruct (IH _ H); auto].
  destruct (ascii_dec c LT); [destruct (tag_len r) as [n|]|]; simpl;
    intros [H|H]; auto; destruct (IH _ H); auto.
Qed.

(** X8.  Tag stripping never makes a summary longer and writes nothing
    but spaces and characters of its input; a text without [<], and a
    text without [>], come out as they are. *)
Theorem strip_tags_conservative (s : str) :
  (List.length (strip_tags s) <= List.length s)%nat
  /\ (forall x, In x (strip_tags s) -> x = SP \/ In x s)
  /\ (~ In LT s -> strip_tags s = s)
  /\ (~ In GT s -> strip_tags s = s).
Proof.
  unfold strip_tags. split; [apply sub_tags_length|].
  split; [intro x; apply sub_tags_in|]. split.
  - induction s as [|c r IH]; intro H; simpl; [reflexivity|].
    destruct (ascii_dec c LT) as [E|_]; [exfalso; apply H; now left|].
    rewrite IH; [reflexivity|]. intro Q. apply H. now right.
  - induction s as [|c r IH]; intro H; simpl; [reflexivity|].
    assert (Hr : ~ In GT r) by (intro Q; apply H; now right).
    assert (T : tag_len r = None).
    { destruct r as [|d r']; [reflexivity|]. simpl.
      destruct (ascii_dec d LT); [reflexivity|].
      rewrite close_at_no_gt; [reflexivity|].
      intro Q. apply Hr. now right. }
    rewrite T, (IH Hr). now destruct (ascii_dec c LT).
Qed.

Lemma replace_char_app (c : ascii) (rep a b : str) :
  replace_char c rep (a ++ b) = replace_char c rep a ++ replace_char c rep b.
Proof. unfold replace_char. apply flat_map_app. Qed.

Lemma esc_cons (c : ascii) (s : str) : esc (c :: s) = esc_char c ++ esc s.
Proof.
  unfold esc. change (c :: s) with ([c] ++ s).
  rewrite !replace_char_app. f_equal.
  unfold esc_char, replace_char. simpl.
  destruct (ascii_dec c AMP) as [->|NA]; [reflexivity|]. simpl.
  destruct (ascii_dec c LT) as [->|NL]; [reflexivity|]. simpl.
  destruct (ascii_dec c GT) as [->|NG]; reflexivity.
Qed.

(** The three replacements of [esc] amount to one pass. *)
Lemma esc_flat_map (s : str) : esc s = flat_map esc_char s.
Proof.
  induction s as [|c s IH]; [reflexivity|].
  rewrite esc_cons, IH. reflexivity.
Qed.

Lemma esc_char_in (x c : ascii) :
  In x (esc_char c) -> x <> LT /\ x <> GT.
Proof.
  unfold esc_char.
  destruct (ascii_dec c AMP); [|destruct (ascii_dec c LT);
                                 [|destruct (ascii_dec c GT)]]; simpl;
    intuition (subst; try discriminate; try congruence).
Qed.

(** X9.  Escaped text holds no [<] and no [>], is never shorter than the
    text, and a text without [&], [<] and [>] is escaped to itself. *)
Theorem esc_no_markup (s : str) :
  ~ In LT (esc s)
  /\ ~ In GT (esc s)
  /\ (List.length s <= List.length (esc s))%nat
  /\ (~ In AMP s -> ~ In LT s -> ~ In GT s -> esc s = s).
Proof.
  rewrite esc_flat_map. split; [|split; [|split]].
  - intro H. apply in_flat_map in H. destruct H as (c & _ & H).
    now apply esc_char_in in H.
  - intro H. apply in_flat_map in H. destruct H as (c & _ & H).
    now apply esc_char_in in H.
  - induction s as [|c s IH]; simpl; [lia|]. rewrite length_app.
    assert (1 <= List.length (esc_char c))%nat; [|lia].
    unfold esc_char.
    destruct (ascii_dec c AMP); [|destruct (ascii_dec c LT);
                                   [|destruct (ascii_dec c GT)]]; simpl; lia.
  - induction s as [|c s IH]; intros A L G; simpl; [reflexivity|].
    rewrite IH by (intro Q; first [ solve [apply A; now right]
                                  | solve [apply L; now right]
                                  | solve [apply G; now right] ]).
    unfold esc_char.
    destruct (ascii_dec c AMP) as [E|_]; [exfalso; apply A; now left|].
    destruct (ascii_dec c LT) as [E|_]; [exfalso; apply L; now left|].
    destruct (ascii_dec c GT) as [E|_]; [exfalso; apply G; now left|].
    reflexivity.
Qed.

Lemma esc_char_inj (c d : ascii) (a b : str) :
  esc_char c ++ a = esc_char d ++ b -> c = d /\ a = b.
Proof.
  unfold esc_char.
  destruct (ascii_dec c AMP) as [->|CA];
    [|destruct (ascii_dec c LT) as [->|CL];
      [|destruct (ascii_dec c GT) as [->|CG]]];
    (destruct (ascii_dec d AMP) as [->|DA];
     [|destruct (ascii_dec d LT) as [->|DL];
       [|destruct (ascii_dec d GT) as [->|DG]]]);
    unfold AMP, LT, GT in *; simpl; intro E; try discriminate E;
    injection E; intros; subst; first [now split | exfalso; congruence].
Qed.

Lemma esc_injective (a b : str) : esc a = esc b -> a = b.
Proof.
  rewrite !esc_flat_map. revert b.
  induction a as [|c a IH]; intros [|d b]; simpl; intro E.
  - reflexivity.
  - exfalso. unfold esc_char in E.
    destruct (ascii_dec d AMP); [|destruct (ascii_dec d LT);
                                   [|destruct (ascii_dec d GT)]];
      discriminate E.
  - exfalso. unfold esc_char in E.
    destruct (ascii_dec c AMP); [|destruct (ascii_dec c LT);
                                   [|destruct (ascii_dec c GT)]];
      discriminate E.
  - apply esc_char_inj in E. destruct E as [-> E]. f_equal. now apply IH.
Qed.

(** X10.  Escaping loses nothing: two different texts are escaped to two
    different texts, so a text that spells an entity is not taken for the
    character the entity stands for. *)
Theorem esc_distinct (a b : str) : a <> b -> esc a <> esc b.
Proof. intros N E. apply N. now apply esc_injective. Qed.

Lemma esc_distinct_witness : esc "&lt;b&gt;" <> esc "<b>".
Proof.
  apply esc_distinct. intro E. discriminate E.
Defined.

(** ** The ledger through a run *)

Lemma has_id_in (iid : str) (rows : list row) :
  has_id iid rows = true <-> In iid (map fst rows).
Proof.
  unfold has_id. rewrite existsb_exists, in_map_iff. split.
  - intros (r & H & E). apply str_eqb_eq in E. now exists r.
  - intros (r & E & H). exists r. split; [exact H|]. now apply str_eqb_eq.
Qed.

Lemma grows_refl (w : world) : grows 0 w w.
Proof.
  exists []. rewrite app_nil_r. repeat split; try constructor.
  - simpl. lia.
  - intros r [].
Qed.

Lemma grows_trans (n m : nat) (w w1 w2 : world) :
  grows n w w1 -> grows m w1 w2 -> grows (n + m) w w2.
Proof.
  intros (r1 & S1 & L1 & T1 & F1 & D1) (r2 & S2 & L2 & T2 & F2 & D2).
  exists (r1 ++ r2). repeat split.
  - now rewrite S2, S1, app_assoc.
  - rewrite length_app. lia.
  - lia.
  - intros r H. apply in_app_or in H. destruct H as [H|H]; [now apply F1|].
    specialize (F2 r H). rewrite S1, has_id_app in F2.
    now apply orb_false_iff in F2.
  - rewrite map_app. apply NoDup_app; [exact D1|exact D2|].
    intros a H1 H2. apply in_map_iff in H2. destruct H2 as (r & <- & H2).
    specialize (F2 r H2). rewrite S1, has_id_app in F2.
    apply orb_false_iff in F2. destruct F2 as [_ F2].
    apply has_id_in in H1. congruence.
Qed.

Lemma grows_ledger_le (n : nat) (w w' : world) : grows n w w' -> ledger_le w w'.
Proof.
  intros (rows & S & _) i H. rewrite S, has_id_app, H. reflexivity.
Qed.

Lemma grows_facts (n : nat) (w w' : world) :
  grows n w w' ->
  (NoDup (ledger_ids w) -> NoDup (ledger_ids w'))
  /\ (forall iid, has_id iid (seen w) = true ->
                  select_id iid (seen w') = select_id iid (seen w)).
Proof.
  intros (rows & S & L & T & F & D). split.
  - unfold ledger_ids. intro N. rewrite S, map_app.
    apply NoDup_app; [exact N|exact D|].
    intros a H1 H2. apply in_map_iff in H2. destruct H2 as (r & <- & H2).
    apply has_id_in in H1. rewrite (F r H2) in H1. discriminate H1.
  - intros i H. rewrite S, select_id_app.
    rewrite (select_id_absent i rows); [apply app_nil_r|].
    apply not_true_is_false. intro Q. apply has_id_in in Q.
    apply in_map_iff in Q. destruct Q as (r & <- & Q).
    rewrite (F r Q) in H. discriminate H.
Qed.

Section Accounting.

Variable clock : nat -> str.
Variable dateparse : str -> option str.
Variable feed : str -> list Entry.

Lemma mark_seen_grows (iid : str) (w : world) :
  has_id iid (seen w) = false ->
  grows 1 w (snd (mark_seen clock iid w)).
Proof.
  intro H. exists [(iid, clock (ticks w))]. simpl. repeat split.
  - unfold insert_or_ignore. simpl. now rewrite H.
  - lia.
  - intros r [<-|[]]. exact H.
  - repeat constructor. intros [].
Qed.

Lemma process_entry_grows (src : Source) (cfg : Config) (e : Entry)
      (w w' : world) (r : result (option Item)) :
  process_entry clock dateparse src cfg e w = (r, w') ->
  grows (match r with Ok (Some _) => 1 | _ => 0 end) w w'.
Proof.
  rewrite process_entry_eq.
  destruct (score_item (entry_blob e) cfg) as [[keep sc]|x];
    [|intros [= <- <-]; apply grows_refl].
  destruct keep; simpl; [|intros [= <- <-]; apply grows_refl].
  destruct (has_id (entry_id e) (seen w)) eqn:H;
    [intros [= <- <-]; apply grows_refl|].
  destruct (src_name src); intros [= <- <-]; [|apply grows_refl].
  exact (mark_seen_grows (entry_id e) w H).
Qed.

Lemma fetch_loop_grows (src : Source) (cfg : Config) (es : list Entry)
      (acc : list Item) (w w' : world) (r : result (list Item)) :
  fetch_loop clock dateparse src cfg es acc w = (r, w') ->
  exists n, grows n w w'
            /\ (n <= List.length es)%nat
            /\ forall all, r = Ok all ->
                           exists new, all = acc ++ new /\ List.length new = n.
Proof.
  revert acc w. induction es as [|e es IH]; intros acc w; simpl.
  - intros [= <- <-]. exists 0%nat. split; [apply grows_refl|]. split; [lia|].
    intros all [= <-]. exists []. now rewrite app_nil_r.
  - unfold bind.
    destruct (process_entry clock dateparse src cfg e w) as [o w1] eqn:P.
    apply process_entry_grows in P. destruct o as [o|x].
    + intro F. destruct (IH _ _ F) as (n & G & L & A).
      exists ((match o with Some _ => 1 | None => 0 end) + n)%nat.
      split; [eapply grows_trans; eauto|]. split; [destruct o; simpl; lia|].
      intros all Q. destruct (A all Q) as (new & -> & Ln).
      destruct o as [it|]; simpl.
      * exists (it :: new). rewrite <- app_assoc. simpl. split; [reflexivity|lia].
      * exists new. now split.
    + intros [= <- <-]. exists 0%nat. split; [exact P|]. split; [lia|].
      discriminate.
Qed.

Lemma fetch_rss_source_grows (src : Source) (cfg : Config)
      (w w' : world) (r : result (list Item)) :
  fetch_rss_source clock dateparse feed src cfg w = (r, w') ->
  exists n, grows n w w'
            /\ (n <= 200)%nat
            /\ forall items, r = Ok items -> List.length items = n.
Proof.
  destruct (src_url src) as [url|] eqn:U.
  - rewrite (fetch_rss_source_eq clock dateparse feed src cfg url w U).
    intro F. destruct (fetch_loop_grows _ _ _ _ _ _ _ F) as (n & G & L & A).
    exists n. split; [exact G|]. split.
    + pose proof (firstn_le_length 200 (feed url)). lia.
    + intros items Q. destruct (A items Q) as (new & -> & Ln). exact Ln.
  - unfold fetch_rss_source, bind, lift. rewrite U. cbn [getitem].
    intros [= <- <-]. exists 0%nat. split; [apply grows_refl|]. split; [lia|].
    discriminate.
Qed.

Lemma main_loop_grows (cfg : Config) (srcs : list Source) (acc : list Item)
      (w w' : world) (r : result (list Item)) :
  main_loop clock dateparse feed cfg srcs acc w = (r, w') ->
  exists n, grows n w w'
            /\ (n <= 200 * List.length (filter is_rss srcs))%nat
            /\ forall all, r = Ok all ->
                           exists new, all = acc ++ new /\ List.length new = n.
Proof.
  revert acc w. induction srcs as [|src srcs IH]; intros acc w; simpl.
  - intros [= <- <-]. exists 0%nat. split; [apply grows_refl|]. split; [lia|].
    intros all [= <-]. exists []. now rewrite app_nil_r.
  - destruct (is_rss src); [|apply IH].
    unfold bind.
    destruct (fetch_rss_source clock dateparse feed src cfg w) as [o w1] eqn:P.
    apply fetch_rss_source_grows in P. destruct P as (n1 & G1 & L1 & A1).
    destruct o as [items|x].
    + intro F. destruct (IH _ _ F) as (n & G & L & A).
      exists (n1 + n)%nat. split; [eapply grows_trans; eauto|].
      split; [simpl; lia|].
      intros all Q. destruct (A all Q) as (new & -> & Ln).
      exists (items ++ new). rewrite app_assoc. split; [reflexivity|].
      rewrite length_app, (A1 items eq_refl). lia.
    + intros [= <- <-]. exists n1. split; [exact G1|]. split; [simpl; lia|].
      discriminate.
Qed.

(** X11.  After [mark_seen(iid)], [already_seen(iid)] answers true, and
    the answer for every other id is what it was; [already_seen] changes
    nothing. *)
Theorem mark_seen_then_already_seen (iid other : str) (w : world) :
  fst (already_seen iid (snd (mark_seen clock iid w))) = Ok true
  /\ (other <> iid ->
      fst (already_seen other (snd (mark_seen clock iid w)))
      = fst (already_seen other w))
  /\ snd (already_seen iid w) = w.
Proof.
  unfold already_seen, mark_seen. simpl. rewrite !has_id_insert. simpl.
  split; [now rewrite str_eqb_refl, orb_true_r|]. split; [|reflexivity].
  intro N. destruct (str_eqb iid other) eqn:E.
  - apply str_eqb_eq in E. congruence.
  - now rewrite orb_false_r.
Qed.

(** X12.  Whatever a run of [main] returns, value or exception, it only
    appends rows to the ledger: the rows it found are still there in the
    same order, with their timestamps; ids that were unique stay unique;
    the clock count does not go back. *)
Theorem main_ledger_append_only (cfg : Config) (w : world) :
  (exists rows, seen (snd (main clock dateparse feed cfg w)) = seen w ++ rows)
  /\ (NoDup (ledger_ids w) ->
      NoDup (ledger_ids (snd (main clock dateparse feed cfg w))))
  /\ (forall iid, has_id iid (seen w) = true ->
                  select_id iid (seen (snd (main clock dateparse feed cfg w)))
                  = select_id iid (seen w))
  /\ (ticks w <= ticks (snd (main clock dateparse feed cfg w)))%nat.
Proof.
  assert (G : exists n, grows n w (snd (main clock dateparse feed cfg w))).
  { rewrite main_eq.
    destruct (main_loop clock dateparse feed cfg (get (sources cfg) []) [] w)
      as [r w1] eqn:L.
    destruct (main_loop_grows _ _ _ _ _ _ L) as (n & G & _).
    exists n. now destruct r. }
  destruct G as (n & G). destruct (grows_facts _ _ _ G) as [N S].
  split; [|split; [exact N|split; [exact S|]]].
  - destruct G as (rows & E & _). now exists rows.
  - destruct G as (rows & _ & _ & T & _). lia.
Qed.

(** X13.  When the loop of [main] completes, the items it collected, the
    rows it added to the ledger and the clock readings it made are equal
    in number, and there are at most 200 for each rss source. *)
Theorem main_loop_accounting (cfg : Config) (w w' : world) (all_items : list Item) :
  main_loop clock dateparse feed cfg (get (sources cfg) []) [] w
  = (Ok all_items, w') ->
  List.length (seen w') = (List.length (seen w) + List.length all_items)%nat
  /\ ticks w' = (ticks w + List.length all_items)%nat
  /\ (List.length all_items
      <= 200 * List.length (filter is_rss (get (sources cfg) [])))%nat.
Proof.
  intro L. destruct (main_loop_grows _ _ _ _ _ _ L) as (n & G & B & A).
  destruct (A all_items eq_refl) as (new & -> & Ln). simpl.
  destruct G as (rows & S & Lr & T & _).
  rewrite S, length_app. repeat split; lia.
Qed.

End Accounting.

Lemma main_loop_accounting_witness :
  List.length (seen (snd ex_run1)) = (List.length (seen ex_world) + 2)%nat
  /\ ticks (snd ex_run1) = (ticks ex_world + 2)%nat.
Proof.
  assert (E : main_loop ex_clock ex_dateparse ex_feed ex_cfg
                        (get (sources ex_cfg) []) [] ex_world
              = (Ok [item_of ex_dateparse "feed" ex_source ex_entry1 70;
                     item_of ex_dateparse "feed" ex_source ex_entry2 75],
                 snd ex_run1))
    by (vm_compute; reflexivity).
  pose proof (main_loop_accounting ex_clock ex_dateparse ex_feed ex_cfg
                ex_world (snd ex_run1) _ E) as (A & B & _).
  split; [exact A|exact B].
Defined.

(** ** What a run emits *)

Lemma score_item_range (text : str) (cfg : Config) (s : Z) :
  score_item text cfg = Ok (true, s) -> (60 <= s <= 100)%Z.
Proof.
  destruct (keywords cfg) as [kw|] eqn:K.
  - rewrite (score_item_eq text cfg kw K).
    destruct (existsb _ (get (exclude_any kw) [])); [discriminate|].
    destruct (truthy _ && negb _); [discriminate|].
    pose proof (count_if_bounds
                  (fun x => contains (normalize_text text) (normalize_text x))
                  (get (nice_to_have_any kw) [])) as B1.
    pose proof (count_if_bounds
                  (fun x => contains (normalize_text text) x) bonus_terms) as B2.
    match goal with
    | |- Ok (true, ?v) = _ -> _ => remember v as sc eqn:Es
    end.
    intros [= <-]. subst sc. lia.
  - unfold score_item. rewrite K. discriminate.
Qed.

Lemma in_firstn {A : Type} (x : A) (n : nat) (l : list A) :
  In x (firstn n l) -> In x l.
Proof.
  revert l. induction n as [|n IH]; intros [|y l]; simpl; try tauto.
  intros [H|H]; auto.
Qed.

Lemma in_slice_to {A : Type} (x : A) (n : Z) (l : list A) :
  In x (slice_to n l) -> In x l.
Proof. unfold slice_to. destruct (n <? 0)%Z; apply in_firstn. Qed.

Section Emitted.

Variable clock : nat -> str.
Variable dateparse : str -> option str.
Variable feed : str -> list Entry.

Lemma process_entry_item (src : Source) (cfg : Config) (e : Entry)
      (w w' : world) (it : Item) :
  process_entry clock dateparse src cfg e w = (Ok (Some it), w') ->
  exists name sc,
    src_name src = Some name
    /\ score_item (entry_blob e) cfg = Ok (true, sc)
    /\ it = item_of dateparse name src e sc
    /\ has_id (entry_id e) (seen w) = false.
Proof.
  rewrite process_entry_eq.
  destruct (score_item (entry_blob e) cfg) as [[keep sc]|x]; [|discriminate].
  destruct keep; simpl; [|discriminate].
  destruct (has_id (entry_id e) (seen w)); [discriminate|].
  destruct (src_name src) as [name|]; [|discriminate].
  intros [= <- _]. now exists name, sc.
Qed.

Lemma fetch_loop_Forall (P : Item -> Prop) (src : Source) (cfg : Config)
      (es : list Entry) (acc all : list Item) (w w' : world) :
  (forall e w0 w1 it,
      process_entry clock dateparse src cfg e w0 = (Ok (Some it), w1) -> P it) ->
  Forall P acc ->
  fetch_loop clock dateparse src cfg es acc w = (Ok all, w') ->
  Forall P all.
Proof.
  intro H. revert acc w. induction es as [|e es IH]; intros acc w A; simpl.
  - now intros [= <- _].
  - unfold bind.
    destruct (process_entry clock dateparse src cfg e w) as [[o|x] w1] eqn:Q;
      [|discriminate].
    apply IH. destruct o as [it|]; simpl; [|exact A].
    apply Forall_app. split; [exact A|]. constructor; [|constructor].
    eapply H. exact Q.
Qed.

Lemma main_loop_Forall (P : Item -> Prop) (cfg : Config) (srcs : list Source)
      (acc all : list Item) (w w' : world) :
  (forall src e w0 w1 it,
      In src srcs -> is_rss src = true ->
      process_entry clock dateparse src cfg e w0 = (Ok (Some it), w1) -> P it) ->
  Forall P acc ->
  main_loop clock dateparse feed cfg srcs acc w = (Ok all, w') ->
  Forall P all.
Proof.
  revert acc w. induction srcs as [|src srcs IH]; intros acc w H A; simpl.
  - now intros [= <- _].
  - destruct (is_rss src) eqn:R.
    + unfold bind.
      destruct (fetch_rss_source clock dateparse feed src cfg w)
        as [[items|x] w1] eqn:Q; [|discriminate].
      apply IH; [intros s e w0 w2 it I; apply H; now right|].
      apply Forall_app. split; [exact A|].
      unfold fetch_rss_source, bind, lift in Q.
      destruct (src_url src) as [url|]; cbn [getitem] in Q; [|discriminate].
      eapply (fetch_loop_Forall P src cfg); [|constructor|exact Q].
      intros e w0 w2 it. apply H; [now left|exact R].
    + apply IH; [|exact A]. intros s e w0 w2 it I. apply H. now right.
Qed.

(** X14.  Every item of a digest has a score between 60 and 100, a title
    that is not empty and a summary of at most 500 characters, and it
    carries the name and the tags of an rss source of the configuration. *)
Theorem main_items_well_formed (cfg : Config) (w w' : world) (items : list Item) :
  main clock dateparse feed cfg w = (Ok items, w') ->
  Forall (fun it =>
            item_ok it
            /\ exists src, In src (get (sources cfg) [])
                           /\ is_rss src = true
                           /\ src_name src = Some (source it)
                           /\ tags it = get (src_tags src) [])
         items.
Proof.
  rewrite main_eq.
  destruct (main_loop clock dateparse feed cfg (get (sources cfg) []) [] w)
    as [[all|x] w1] eqn:L; [|discriminate].
  intros [= S _].
  match goal with |- Forall ?Q _ => set (P := Q) end.
  assert (A : Forall P all).
  { apply (main_loop_Forall P cfg (get (sources cfg) []) [] all w w1);
      [|constructor|exact L].
    intros src e w0 w2 it I R Q. unfold P.
    apply process_entry_item in Q. destruct Q as (name & sc & N & Sc & -> & _).
    apply score_item_range in Sc. split.
    - unfold item_ok, item_of. cbn [score title summary].
      split; [exact Sc|]. split.
      + destruct (entry_title e); discriminate.
      + apply firstn_le_length.
    - exists src. unfold item_of. cbn [source tags]. now repeat split. }
  unfold items_sorted in S.
  destruct (getitem "email" (email cfg)) as [em|]; [|discriminate S].
  destruct (getitem "max_items" (max_items em)) as [n|]; [|discriminate S].
  injection S as <-. rewrite Forall_forall in *. intros it I. apply A.
  apply in_slice_to in I.
  exact (Permutation_in it (sorted_desc_perm all) I).
Qed.



(** X16.  Sources whose type is not "rss" take no part in a run: they
    need no url and no name, and the loop of [main] gives the same items
    and the same world as over the rss sources alone.  Without a sources
    key nothing is fetched and the ledger stays as it is. *)
Theorem other_sources_skipped (cfg : Config) (srcs : list Source)
        (acc : list Item) (w : world) (kws : option Keywords) (em : option Email) :
  main_loop clock dateparse feed cfg srcs acc w
  = main_loop clock dateparse feed cfg (filter is_rss srcs) acc w
  /\ main clock dateparse feed (mkConfig None kws em) w
     = (items_sorted [] (mkConfig None kws em), w).
Proof.
  split; [|reflexivity].
  revert acc w. induction srcs as [|src srcs IH]; intros acc w; simpl;
    [reflexivity|].
  destruct (is_rss src) eqn:R; [|apply IH].
  simpl. rewrite R. unfold bind.
  destruct (fetch_rss_source clock dateparse feed src cfg w) as [[items|x] w1];
    [apply IH|reflexivity].
Qed.

End Emitted.

Lemma main_items_well_formed_witness :
  Forall item_ok [item_of ex_dateparse "feed" ex_source ex_entry2 75].
Proof.
  assert (E : main ex_clock ex_dateparse ex_feed ex_cfg ex_world
              = (Ok [item_of ex_dateparse "feed" ex_source ex_entry2 75],
                 snd ex_run1))
    by (vm_compute; reflexivity).
  pose proof (main_items_well_formed ex_clock ex_dateparse ex_feed ex_cfg
                ex_world (snd ex_run1) _ E) as F.
  eapply Forall_impl; [|exact F]. intros it H. exact (proj1 H).
Defined.


(** ** More on the ranking *)

Lemma sorted_desc_length (items : list Item) :
  List.length (sorted_desc items) = List.length items.
Proof. apply Permutation_length, sorted_desc_perm. Qed.

(** X17.  When the ranking returns a digest, the digest together with
    the items it leaves out is a rearrangement of the collected items.
    With [max_items >= 0] it shows [max_items] items, or all of them when
    there are fewer; with a negative [max_items] nothing is raised and the
    digest leaves out the [-max_items] lowest-ranked items. *)
Theorem items_sorted_bounds (items shown : list Item) (cfg : Config) :
  items_sorted items cfg = Ok shown ->
  exists (em : Email) (n : Z) (rest : list Item),
    email cfg = Some em
    /\ max_items em = Some n
    /\ shown ++ rest = sorted_desc items
    /\ Permutation (shown ++ rest) items
    /\ ((0 <= n)%Z ->
        List.length shown = Nat.min (Z.to_nat n) (List.length items))
    /\ ((n < 0)%Z ->
        List.length shown = (List.length items - Z.to_nat (- n))%nat).
Proof.
  unfold items_sorted. intro H.
  destruct (email cfg) as [em|]; [|discriminate H]. cbn [getitem] in H.
  destruct (max_items em) as [n|] eqn:M; [|discriminate H]. cbn [getitem] in H.
  injection H as <-. unfold slice_to.
  destruct (n <? 0)%Z eqn:L; bool_to_prop.
  - exists em, n,
      (skipn (Z.to_nat (Z.of_nat (List.length (sorted_desc items)) + n))
             (sorted_desc items)).
    rewrite firstn_skipn.
    split; [reflexivity|]. split; [exact M|]. split; [reflexivity|].
    split; [apply sorted_desc_perm|]. split; [lia|].
    intros _. rewrite length_firstn, sorted_desc_length. lia.
  - exists em, n, (skipn (Z.to_nat n) (sorted_desc items)).
    rewrite firstn_skipn.
    split; [reflexivity|]. split; [exact M|]. split; [reflexivity|].
    split; [apply sorted_desc_perm|]. split; [|lia].
    intros _. rewrite length_firstn, sorted_desc_length. reflexivity.
Qed.

Lemma items_sorted_bounds_witness :
  exists (em : Email) (n : Z) (rest : list Item),
    email (mkConfig None None (Some (mkEmail None (Some (-1)%Z)))) = Some em
    /\ max_items em = Some n
    /\ [ex_item 95 "2024-01-01"; ex_item 80 "2024-02-01"] ++ rest
       = sorted_desc [ex_item 80 "2024-01-01"; ex_item 95 "2024-01-01";
                      ex_item 80 "2024-02-01"]
    /\ Permutation
         ([ex_item 95 "2024-01-01"; ex_item 80 "2024-02-01"] ++ rest)
         [ex_item 80 "2024-01-01"; ex_item 95 "2024-01-01";
          ex_item 80 "2024-02-01"]
    /\ ((0 <= n)%Z ->
        List.length [ex_item 95 "2024-01-01"; ex_item 80 "2024-02-01"]
        = Nat.min (Z.to_nat n) 3)
    /\ ((n < 0)%Z ->
        List.length [ex_item 95 "2024-01-01"; ex_item 80 "2024-02-01"]
        = (3 - Z.to_nat (- n))%nat).
Proof.
  exact (items_sorted_bounds
           [ex_item 80 "2024-01-01"; ex_item 95 "2024-01-01";
            ex_item 80 "2024-02-01"]
           [ex_item 95 "2024-01-01"; ex_item 80 "2024-02-01"]
           (mkConfig None None (Some (mkEmail None (Some (-1)%Z))))
           eq_refl).
Defined.

Lemma key_eqb_eq (k1 k2 : Z * str) : key_eqb k1 k2 = true <-> k1 = k2.
Proof.
  destruct k1 as [s1 p1], k2 as [s2 p2]. unfold key_eqb. simpl.
  rewrite andb_true_iff, Z.eqb_eq, str_eqb_eq. split.
  - now intros [-> ->].
  - now intros [= -> ->].
Qed.

Lemma key_ltb_irrefl (k : Z * str) : key_ltb k k = false.
Proof.
  unfold key_ltb. now rewrite Z.ltb_irrefl, Z.eqb_refl, str_ltb_irrefl.
Qed.

Lemma insert_desc_filter (k : Z * str) (x : Item) (l : list Item) :
  filter (fun y => key_eqb (key y) k) (insert_desc x l)
  = filter (fun y => key_eqb (key y) k) (x :: l).
Proof.
  induction l as [|y r IH]; [reflexivity|].
  cbn [insert_desc].
  destruct (key_ltb (key x) (key y)) eqn:L; [|reflexivity].
  cbn [filter] in *. rewrite IH.
  destruct (key_eqb (key x) k) eqn:Ex; [|reflexivity].
  destruct (key_eqb (key y) k) eqn:Ey; [|reflexivity].
  apply key_eqb_eq in Ex, Ey. rewrite Ex, Ey, key_ltb_irrefl in L.
  discriminate L.
Qed.

(** X18.  The ranking is stable: the items that share a score and a
    publication date stand in the digest order as they were collected. *)
Theorem sorted_desc_stable (items : list Item) (k : Z * str) :
  filter (fun y => key_eqb (key y) k) (sorted_desc items)
  = filter (fun y => key_eqb (key y) k) items.
Proof.
  induction items as [|x r IH]; [reflexivity|].
  unfold sorted_desc in *. cbn [fold_right].
  rewrite insert_desc_filter. cbn [filter]. now rewrite IH.
Qed.

(** ** Failures of a run *)

Lemma settled_keywords (cfg cfg' : Config) (w : world) (e : Entry) :
  keywords cfg = keywords cfg' -> settled cfg w e -> settled cfg' w e.
Proof. unfold settled, score_item. now intros ->. Qed.

Lemma source_settled_keywords (feed : str -> list Entry) (cfg cfg' : Config)
      (w : world) (src : Source) :
  keywords cfg = keywords cfg' ->
  source_settled feed cfg w src -> source_settled feed cfg' w src.
Proof.
  intros K S R. destruct (S R) as (url & U & F). exists url. split; [exact U|].
  eapply Forall_impl; [|exact F]. intro e. now apply settled_keywords.
Qed.

Section Failures.

Variable clock : nat -> str.
Variable dateparse : str -> option str.
Variable feed : str -> list Entry.

(** X19.  When the loop of [main] completes and the ranking then raises
    (no email section, or no [max_items] in it), [main] raises that
    exception with the fingerprints of the collected items already in the
    ledger: a later run under the same sources and keywords, with the
    email section put right, reports none of them. *)
Theorem marks_survive_late_failure
        (cfg : Config) (w w1 : world) (all_items : list Item) (x : exn)
        (prefix : option str) (n : Z) :
  main_loop clock dateparse feed cfg (get (sources cfg) []) [] w
  = (Ok all_items, w1) ->
  items_sorted all_items cfg = Raise x ->
  main clock dateparse feed cfg w = (Raise x, w1)
  /\ main clock dateparse feed
          (mkConfig (sources cfg) (keywords cfg) (Some (mkEmail prefix (Some n))))
          w1
     = (Ok [], w1).
Proof.
  intros L S. split; [now rewrite main_eq, L, S|].
  rewrite main_eq. cbn [sources].
  rewrite (main_loop_settled clock dateparse feed _ _ [] w1).
  - unfold items_sorted, slice_to. simpl.
    now rewrite !firstn_nil, Tauto.if_same.
  - pose proof (main_loop_settles clock dateparse feed cfg _ _ _ _ _ L) as F.
    eapply Forall_impl; [|exact F].
    intro src. now apply source_settled_keywords.
Qed.

(** X20.  A configuration without a keywords section is found out only
    when an entry is scored: the loop over a feed raises [KeyError] at its
    first entry and writes nothing, the loop over an empty feed returns
    the items it started from, and over rss sources whose feeds are all
    empty the loop of [main] over the sources returns no new item and
    raises nothing.  What [main] does after that loop is no part of the
    statement. *)
Theorem missing_keywords_raise_when_scoring (cfg : Config) :
  keywords cfg = None ->
  (forall src e es items w,
      fetch_loop clock dateparse src cfg (e :: es) items w
      = (Raise (KeyError "keywords"), w))
  /\ (forall src items w,
        fetch_loop clock dateparse src cfg [] items w = (Ok items, w))
  /\ (forall srcs all_items w,
        (forall src, In src srcs -> is_rss src = true ->
                     exists url, src_url src = Some url /\ feed url = []) ->
        main_loop clock dateparse feed cfg srcs all_items w = (Ok all_items, w)).
Proof.
  intro K. split; [|split; [reflexivity|]].
  - intros src e es items w. simpl. unfold bind.
    rewrite process_entry_eq. unfold score_item. now rewrite K.
  - intros srcs all_items w H.
    apply (main_loop_settled clock dateparse feed cfg srcs all_items w).
    apply Forall_forall. intros src I R.
    destruct (H src I R) as (url & U & E). exists url. split; [exact U|].
    rewrite E. constructor.
Qed.

(** X21.  A source without a name never yields an item and never writes
    to the ledger: its loop either completes with the items it started
    from or raises, and the world is as before. *)
Theorem source_without_name_writes_nothing
        (src : Source) (cfg : Config) (es : list Entry) (items : list Item)
        (w : world) :
  src_name src = None ->
  fetch_loop clock dateparse src cfg es items w = (Ok items, w)
  \/ exists x, fetch_loop clock dateparse src cfg es items w = (Raise x, w).
Proof.
  intro N. induction es as [|e es IH]; simpl; [now left|].
  unfold bind. rewrite process_entry_eq, N.
  destruct (score_item (entry_blob e) cfg) as [[keep sc]|x]; [|right; eauto].
  destruct keep; simpl; [|exact IH].
  destruct (has_id (entry_id e) (seen w)); [exact IH|right; eauto].
Qed.

End Failures.

Lemma marks_survive_late_failure_witness :
  main ex_clock ex_dateparse ex_feed
       (mkConfig (Some [ex_source]) (Some ex_keywords) None) ex_world
  = (Raise (KeyError "email"), snd ex_run1)
  /\ main ex_clock ex_dateparse ex_feed ex_cfg (snd ex_run1)
     = (Ok [], snd ex_run1).
Proof.
  assert (E : main_loop ex_clock ex_dateparse ex_feed
                        (mkConfig (Some [ex_source]) (Some ex_keywords) None)
                        [ex_source] [] ex_world
              = (Ok [item_of ex_dateparse "feed" ex_source ex_entry1 70;
                     item_of ex_dateparse "feed" ex_source ex_entry2 75],
                 snd ex_run1))
    by (vm_compute; reflexivity).
  exact (marks_survive_late_failure ex_clock ex_dateparse ex_feed
           (mkConfig (Some [ex_source]) (Some ex_keywords) None)
           ex_world (snd ex_run1) _ (KeyError "email")
           (Some ("Digest" : str)) 1%Z E eq_refl).
Defined.

Lemma missing_keywords_raise_when_scoring_witness :
  fetch_loop ex_clock ex_dateparse ex_source
             (mkConfig (Some [ex_source]) None None)
             [ex_entry1; ex_entry2] [] ex_world
  = (Raise (KeyError "keywords"), ex_world)
  /\ main_loop ex_clock ex_dateparse (fun _ => [])
               (mkConfig (Some [ex_source]) None None) [ex_source] [] ex_world
     = (Ok [], ex_world).
Proof.
  split.
  - exact (proj1 (missing_keywords_raise_when_scoring ex_clock ex_dateparse
                    ex_feed (mkConfig (Some [ex_source]) None None) eq_refl)
                 ex_source ex_entry1 [ex_entry2] [] ex_world).
  - apply (proj2 (proj2 (missing_keywords_raise_when_scoring ex_clock
                           ex_dateparse (fun _ => [])
                           (mkConfig (Some [ex_source]) None None)
                           eq_refl))).
    intros src [<-|[]] _. exists ("http://x/rss" : str). now split.
Defined.

Lemma source_without_name_writes_nothing_witness :
  fetch_loop ex_clock ex_dateparse
             (mkSource None (Some ("rss" : str)) (Some ("http://x/rss" : str)) None)
             ex_cfg [ex_entry1; ex_entry2] [] ex_world
  = (Raise (KeyError "name"), ex_world).
Proof.
  destruct (source_without_name_writes_nothing ex_clock ex_dateparse
              (mkSource None (Some ("rss" : str)) (Some ("http://x/rss" : str)) None)
              ex_cfg [ex_entry1; ex_entry2] [] ex_world eq_refl) as [H|(x & H)].
  - vm_compute in H. discriminate H.
  - rewrite H. vm_compute in H. injection H as H. now rewrite <- H.
Defined.
